(** * tofutf: agent/job orchestration service and log-chunk caching proxy

    A shallow embedding of [internal/agent/service.go] and
    [internal/logs/proxy.go].  Go methods that read and write the store, the
    cache or an external collaborator become functions in a state monad over
    an explicit world; every externally visible action is also appended to
    an effect trace, so that statements such as "called exactly once" or
    "never touches the cache" can be read off the trace. *)

From Stdlib Require Import ZArith.
From stdpp Require Import gmap strings list.

Open Scope string_scope.
Open Scope list_scope.

(** ** Go's [error] values *)

(** The sentinel errors the two packages return, [errors.New]/[fmt.Errorf]
    values without a sentinel ([ErrorString]) and [%w]-wrapping
    ([ErrorWrap]). *)
Inductive error : Type :=
| ErrAccessNotPermitted
| ErrResourceNotFound
| ErrInvalidStateTransition
| ErrCannotDeletePoolReferencedByWorkspaces
| ErrWorkspaceNotAllowedToUsePool
| ErrUnauthorizedAgentRegistration
| ErrSubscriptionTerminated
| ErrorString (msg : string)
| ErrorWrap (msg : string) (inner : error).

#[global] Instance error_eq_dec : EqDecision error.
Proof. solve_decision. Defined.

(** [errors.Is(err, target)]: [err] or an error it wraps is [target]. *)
Fixpoint errors_Is (err target : error) : bool :=
  if decide (err = target) then true
  else match err with
       | ErrorWrap _ inner => errors_Is inner target
       | _ => false
       end.

(** A Go result pair [(T, error)]. *)
Inductive result (A : Type) : Type :=
| Ok (a : A)
| Err (e : error).
Arguments Ok {A} a.
Arguments Err {A} e.

Definition is_Err {A} (r : result A) : Prop :=
  match r with Err _ => True | Ok _ => False end.

(** ** State monad *)

Definition M (W A : Type) : Type := W → A * W.

Definition ret {W A} (a : A) : M W A := λ w, (a, w).

Definition bind {W A B} (c : M W A) (k : A → M W B) : M W B :=
  λ w, let '(a, w1) := c w in k a w1.

Declare Scope monad_scope.
Delimit Scope monad_scope with monad.
Notation "'let*' x := c 'in' k" := (bind c (λ x, k))
  (at level 10, x name, c at level 100, k at level 200) : monad_scope.
Open Scope monad_scope.

(** [internal.PhaseType] is a Go string type. *)
Definition PhaseType : Type := string.

Abbreviation bytes := (list Byte.byte).

Inductive LogLevel : Type := LevelDebug | LevelInfo | LevelError.

(** [pubsub.Event[T]] *)
Inductive EventType : Type := CreatedEvent | UpdatedEvent | DeletedEvent.

Record Event (T : Type) : Type := mkEvent {
  Type_ : EventType;
  Payload : T;
}.
Arguments mkEvent {T} _ _.
Arguments Type_ {T} _.
Arguments Payload {T} _.

(** * The log-chunk caching proxy ([internal/logs/proxy.go]) *)

Module Logs.

(** [internal.Chunk], as the proxy uses it. *)
Record Chunk : Type := mkChunk {
  RunID : string;
  Phase : PhaseType;
  Data : bytes;
  Offset : Z;
}.

Record GetChunkOptions : Type := mkGetChunkOptions {
  get_RunID : string;
  get_Phase : PhaseType;
  Limit : Z;
  get_Offset : Z;
}.

Record PutChunkOptions : Type := mkPutChunkOptions {
  put_RunID : string;
  put_Phase : PhaseType;
  put_Data : bytes;
  put_Offset : Z;
}.

(** Modelled from the spec: [Chunk.IsStart],
    whose source is not available.  Spec, data model: "IsStart() iff Offset
    == 0". *)
Definition IsStart (c : Chunk) : bool := bool_decide (Offset c = 0%Z).

(** Modelled from the spec: [Chunk.Cut],
    whose source is not available.  Spec, round-trip laws: "Chunk.Cut(offset,
    limit).Data =
    full.Data[offset : offset+limit] (clipped to bounds)".  Only [Data] is
    fixed by the spec; the other fields are carried over. *)
Definition slice (lo hi : Z) (data : bytes) : bytes :=
  let len := Z.of_nat (length data) in
  let lo' := Z.max 0 (Z.min lo len) in
  let hi' := Z.max lo' (Z.min hi len) in
  take (Z.to_nat (hi' - lo')) (drop (Z.to_nat lo') data).

Definition Cut (c : Chunk) (opts : GetChunkOptions) : Chunk :=
  {| RunID := RunID c;
     Phase := Phase c;
     Data := slice (get_Offset opts) (get_Offset opts + Limit opts) (Data c);
     Offset := Offset c |}.

(** [cacheKey]: [fmt.Sprintf("%s.%s.log", runID, string(phase))]. *)
Definition cacheKey (runID : string) (phase : PhaseType) : string :=
  runID +:+ "." +:+ phase +:+ ".log".

(** Modelled from the spec: [internal.Cache],
    whose source is not available; the proxy calls [Get(key) ([]byte, error)]
    and
    [Set(key, val) error].  Spec, concurrency model: the log-proxy cache is
    "a concurrent key-value store".  [Get] fails exactly on a key that is
    not held.  [Set] can fail (both call sites handle its error); which
    writes the cache takes is the cache's own business, here the predicate
    [accepts], and a refused write leaves the entries as they were. *)
Record Cache : Type := mkCache {
  entries : gmap string bytes;
  accepts : string → bytes → bool;
}.

Definition ErrEntryNotFound : error := ErrorString "Entry not found".
Definition ErrCacheSet : error := ErrorString "cache set failed".

Definition Cache_Get (key : string) (c : Cache) : result bytes :=
  match entries c !! key with
  | Some v => Ok v
  | None => Err ErrEntryNotFound
  end.

Definition Cache_Set (key : string) (val : bytes) (c : Cache)
  : option error * Cache :=
  if accepts c key val
  then (None, {| entries := <[key := val]> (entries c); accepts := accepts c |})
  else (Some ErrCacheSet, c).

(** The [proxydb] interface of proxy.go, over a store state [D]. *)
Class proxydb (D : Type) : Type := {
  getLogs : string → PhaseType → D → result bytes * D;
  put : PutChunkOptions → D → result string * D;
}.

(** What the proxy does to its collaborators, in order. *)
Inductive Effect : Type :=
| CacheGet (key : string)
| CacheSet (key : string) (val : bytes)
| DbGetLogs (runID : string) (phase : PhaseType)
| DbPut (opts : PutChunkOptions)
| LogError (msg : string) (err : error).

Section Proxy.
Context {D : Type} {DB : proxydb D}.

(** The [proxy] struct: its cache and store, with the trace of effects
    (the logger's output included). *)
Record proxy : Type := mkProxy {
  cache : Cache;
  db : D;
  trace : list Effect;
}.

Definition emit (e : Effect) : M proxy unit :=
  λ p, (tt, {| cache := cache p; db := db p; trace := trace p ++ [e] |}).

(** [p.cache.Get(key)] *)
Definition p_cache_Get (key : string) : M proxy (result bytes) :=
  let* _ := emit (CacheGet key) in
  λ p, (Cache_Get key (cache p), p).

(** [p.cache.Set(key, val)] *)
Definition p_cache_Set (key : string) (val : bytes)
  : M proxy (option error) :=
  let* _ := emit (CacheSet key val) in
  λ p, let '(r, c) := Cache_Set key val (cache p) in
       (r, {| cache := c; db := db p; trace := trace p |}).

(** [p.db.getLogs(ctx, runID, phase)] *)
Definition p_db_getLogs (runID : string) (phase : PhaseType)
  : M proxy (result bytes) :=
  let* _ := emit (DbGetLogs runID phase) in
  λ p, let '(r, d) := getLogs runID phase (db p) in
       (r, {| cache := cache p; db := d; trace := trace p |}).

(** [p.db.put(ctx, opts)] *)
Definition p_db_put (opts : PutChunkOptions) : M proxy (result string) :=
  let* _ := emit (DbPut opts) in
  λ p, let '(r, d) := put opts (db p) in
       (r, {| cache := cache p; db := d; trace := trace p |}).

(** [p.logger.Error(msg, "err", err)] *)
Definition logger_Error (msg : string) (err : error) : M proxy unit :=
  emit (LogError msg err).

(** The body of the [for event := range sub] loop of [Start], for one
    chunk.  [Some err] is the [return err] inside the loop. *)
Definition Start_chunk (chunk : Chunk) : M proxy (option error) :=
  let key := cacheKey (RunID chunk) (Phase chunk) in
  let* logs :=
    (if IsStart chunk then ret (Ok (Data chunk))
     else
       let* r := p_cache_Get key in
       match r with
       | Err _ => p_db_getLogs (RunID chunk) (Phase chunk)
       | Ok existing => ret (Ok (existing ++ Data chunk))
       end) in
  match logs with
  | Err err => ret (Some err)
  | Ok logs =>
      let* r := p_cache_Set key logs in
      let* _ := match r with
                | Some err => logger_Error "caching log chunk" err
                | None => ret tt
                end in
      ret None
  end.

(** [Start]: [sub] is what the subscription delivers before it is
    closed. *)
Fixpoint Start (sub : list (Event Chunk)) : M proxy error :=
  match sub with
  | [] => ret ErrSubscriptionTerminated
  | event :: sub' =>
      let* r := Start_chunk (Payload event) in
      match r with
      | Some err => ret err
      | None => Start sub'
      end
  end.

(** [get] *)
Definition get (opts : GetChunkOptions) : M proxy (result Chunk) :=
  let key := cacheKey (get_RunID opts) (get_Phase opts) in
  let* r := p_cache_Get key in
  let* data :=
    match r with
    | Ok data => ret (Ok data)
    | Err _ =>
        let* r := p_db_getLogs (get_RunID opts) (get_Phase opts) in
        match r with
        | Err err => ret (Err err)
        | Ok data =>
            let* r := p_cache_Set key data in
            let* _ := match r with
                      | Some err => logger_Error "caching log chunk" err
                      | None => ret tt
                      end in
            ret (Ok data)
        end
    end in
  match data with
  | Err err => ret (Err err)
  | Ok data =>
      let chunk := {| RunID := get_RunID opts; Phase := get_Phase opts;
                      Data := data; Offset := 0 |} in
      ret (Ok (Cut chunk opts))
  end.

(** [put] (the method of [proxy], not the one of [proxydb]). *)
Definition proxy_put (opts : PutChunkOptions) : M proxy (option error) :=
  let* r := p_db_put opts in
  match r with
  | Ok _ => ret None
  | Err err => ret (Some err)
  end.

End Proxy.

Arguments proxy D : clear implicits.

End Logs.

(** * The agent service ([internal/agent/service.go]) *)

Module Agent.

(** ** Data model *)

Inductive JobStatus : Type :=
| JobUnallocated | JobAllocated | JobRunning
| JobFinished | JobErrored | JobCanceled.

Inductive AgentStatus : Type :=
| AgentIdle | AgentBusy | AgentUnknown | AgentErrored | AgentExited.

#[global] Instance JobStatus_eq_dec : EqDecision JobStatus.
Proof. solve_decision. Defined.
#[global] Instance AgentStatus_eq_dec : EqDecision AgentStatus.
Proof. solve_decision. Defined.

Record JobSpec : Type := mkJobSpec {
  RunID : string;
  Phase : PhaseType;
}.

#[global] Instance JobSpec_eq_dec : EqDecision JobSpec.
Proof. solve_decision. Defined.

#[global] Program Instance JobSpec_countable : Countable JobSpec :=
  inj_countable' (λ s, (RunID s, Phase s)) (λ p, mkJobSpec p.1 p.2) _.
Next Obligation. by intros []. Qed.

Record Job : Type := mkJob {
  Spec : JobSpec;
  Status : JobStatus;
  AgentID : option string;
  Signaled : option bool;
  WorkspaceID : string;
  Organization : string;
}.

Record Agent : Type := mkAgent {
  agent_ID : string;
  agent_Status : AgentStatus;
  MaxJobs : Z;
  CurrentJobs : Z;
  AgentPoolID : option string;
  LastPingAt : Z;
  LastStatusAt : Z;
}.

Record Pool : Type := mkPool {
  pool_ID : string;
  pool_Name : string;
  pool_Organization : string;
  OrganizationScoped : bool;
  AllowedWorkspaces : list string;
  AssignedWorkspaces : list string;
}.

(** [workspace.Workspace] and [run.Run], as far as the service reads
    them; whether the run "has been force-canceled" is what the spec's
    [cancel(run)] rules look at. *)
Record Workspace : Type := mkWorkspace {
  ws_ID : string;
  ws_AgentPoolID : option string;
}.

Record Run : Type := mkRun {
  run_ID : string;
  run_Phase : PhaseType;
  run_ForceCanceled : bool;
}.

(** ** Subjects

    The dynamic types a [Subject] taken from the context can have: the
    service dispatches on them with type switches. *)
Inductive Subject : Type :=
| manager
| serverAgent (agent : Agent)
| poolAgent (agent : Agent) (pool : Pool) (agentTokenID : string)
| unregisteredServerAgent
| unregisteredPoolAgent (pool : Pool) (agentTokenID : string)
| JobSubject (job : Job)
| otherSubject (name : string).

Record context : Type := mkContext {
  ctx_subject : option Subject;
}.

(** Modelled from the spec: the [String] method of the two registered
    agent subjects, whose source is not available.  Spec, service
    contract: for [updateAgentStatus(agentID, status)] "caller must be that
    agent", which the service decides by [s.String() != agentID]: the
    string of a registered agent is its ID. *)
Definition Subject_String (s : Subject) : string :=
  match s with
  | manager => "agent-manager"
  | serverAgent agent => agent_ID agent
  | poolAgent agent _ _ => agent_ID agent
  | unregisteredServerAgent => "unregistered-server-agent"
  | unregisteredPoolAgent _ tokenID => tokenID
  | JobSubject job => RunID (Spec job) +:+ "/" +:+ Phase (Spec job)
  | otherSubject name => name
  end.

(** Modelled from the spec: [internal.SubjectFromContext],
    whose source is not available.  Spec, design notes: "Callers arrive as
    one of" the
    subject variants; a context that carries none yields an error, whose
    value is that function's own. *)
Definition SubjectFromContext (ctx : context) : result Subject :=
  match ctx_subject ctx with
  | Some s => Ok s
  | None => Err (ErrorString "no subject in context")
  end.

(** Modelled from the spec: [registeredAgentFromContext],
    whose source is not available.  Spec, design notes: the "registered
    server/pool
    agent" variants; service contract: for [startJob] the "caller must be
    the agent currently assigned to the job". *)
Definition registeredAgentFromContext (ctx : context) : result Subject :=
  match SubjectFromContext ctx with
  | Err err => Err err
  | Ok (serverAgent a) => Ok (serverAgent a)
  | Ok (poolAgent a p t) => Ok (poolAgent a p t)
  | Ok _ => Err (ErrorString "subject is not a registered agent")
  end.

(** ** Job state machine *)

Definition set_Status (st : JobStatus) (j : Job) : Job :=
  {| Spec := Spec j; Status := st; AgentID := AgentID j;
     Signaled := Signaled j; WorkspaceID := WorkspaceID j;
     Organization := Organization j |}.

(** Modelled from the spec: [Job.startJob],
    whose source is not available.  Spec, job state machine: from
    [allocated], event
    [startJob()], to [running]; "Any illegal transition is reported as
    ErrInvalidStateTransition". *)
Definition Job_startJob (j : Job) : result Job :=
  match Status j with
  | JobAllocated => Ok (set_Status JobRunning j)
  | _ => Err ErrInvalidStateTransition
  end.

(** ** Collaborators *)

(** [rbac.Action], the actions this file names. *)
Inductive Action : Type :=
| CreateAgentPoolAction | UpdateAgentPoolAction | GetAgentPoolAction
| ListAgentPoolsAction | DeleteAgentPoolAction.

(** [internal.Authorizer] *)
Class Authorizer : Type := {
  CanAccess : context → Action → string → result Subject;
}.

Record PhaseFinishOptions : Type := mkPhaseFinishOptions {
  Errored : bool;
}.

(** The [phaseClient] interface of service.go, over the state [R] of the
    run service; the [*Run] results are dropped by every caller. *)
Class phaseClient (R : Type) : Type := {
  StartPhase : string → PhaseType → R → option error * R;
  FinishPhase : string → PhaseType → PhaseFinishOptions → R → option error * R;
  Cancel : string → R → option error * R;
}.

(** [tokenFactory.createJobToken], over the state [T] of the token
    service. *)
Class tokenFactory (T : Type) : Type := {
  createJobToken : JobSpec → T → result bytes * T;
}.

(** What the service does to the store and to its collaborators, in
    order. *)
Inductive Effect : Type :=
| CallStartPhase (runID : string) (phase : PhaseType)
| CallFinishPhase (runID : string) (phase : PhaseType)
    (opts : PhaseFinishOptions)
| CallCancel (runID : string)
| CallCreateJobToken (spec : JobSpec)
| DbUpdateJob (spec : JobSpec) (job : Job)
| DbUpdateAgent (agentID : string) (agent : Agent)
| DbDeleteAgentPool (poolID : string)
| Log (level : LogLevel) (msg : string).

Definition is_phase_call (e : Effect) : bool :=
  match e with
  | CallStartPhase _ _ | CallFinishPhase _ _ _ | CallCancel _ => true
  | _ => false
  end.

Definition is_write (e : Effect) : bool :=
  match e with
  | DbUpdateJob _ _ | DbUpdateAgent _ _ | DbDeleteAgentPool _ => true
  | _ => false
  end.

Section Service.
Context {R T : Type} {PC : phaseClient R} {TF : tokenFactory T}
  {AZ : Authorizer}.

(** The sources of the job and agent state machines are not available.
    Where the service only passes their verdict on, they are
    parameters: [job.finishJob(to)], [job.cancel(run)] (it also returns
    the signal) and [agent.setStatus(to, isAgent)]. *)
Variable Job_finishJob : Job → JobStatus → result Job.
Variable Job_cancel : Job → Run → result (Job * option bool).
Variable Agent_setStatus : Agent → AgentStatus → bool → result Agent.

(** The store's tables, the state of the run service and of the token
    service, and the effects so far. *)
Record world : Type := mkWorld {
  pools : gmap string Pool;
  agents : gmap string Agent;
  jobs : gmap JobSpec Job;
  runs : R;
  tokens : T;
  trace : list Effect;
}.

Definition emit (e : Effect) : M world unit :=
  λ w, (tt, {| pools := pools w; agents := agents w; jobs := jobs w;
               runs := runs w; tokens := tokens w;
               trace := trace w ++ [e] |}).

Definition logger (level : LogLevel) (msg : string) : M world unit :=
  emit (Log level msg).

(** *** The store adapter *)

(** Modelled from the spec: [db.getPool],
    whose source is not available.  Spec, store adapter: "typed CRUD for each
    entity"; error
    taxonomy: a missing entity surfaces "as ErrResourceNotFound". *)
Definition db_getPool (poolID : string) : M world (result Pool) :=
  λ w, (match pools w !! poolID with
        | Some pool => Ok pool
        | None => Err ErrResourceNotFound
        end, w).

(** Modelled from the spec: [db.deleteAgentPool],
    whose source is not available.  Spec, store adapter: "typed CRUD for each
    entity". *)
Definition db_deleteAgentPool (poolID : string) : M world (option error) :=
  let* _ := emit (DbDeleteAgentPool poolID) in
  λ w, (None, {| pools := delete poolID (pools w); agents := agents w;
                 jobs := jobs w; runs := runs w; tokens := tokens w;
                 trace := trace w |}).

(** Modelled from the spec: [db.updateJob],
    whose source is not available.  Spec, store adapter: "load row with FOR
    UPDATE, run the
    mutator on the in-memory value, persist iff mutator returns no
    error"; a missing row is [ErrResourceNotFound] (what [cancelJob]
    tests for).  The Go mutator changes the job through a pointer and
    sets variables of the enclosing function; here it returns the
    changed job together with the value [A] it hands out. *)
Definition db_updateJob {A} (spec : JobSpec)
    (fn : Job → M world (result (Job * A))) : M world (result (Job * A)) :=
  λ w, match jobs w !! spec with
       | None => (Err ErrResourceNotFound, w)
       | Some job =>
           (let* r := fn job in
            match r with
            | Err err => ret (Err err)
            | Ok (job', a) =>
                let* _ := emit (DbUpdateJob spec job') in
                λ w1, (Ok (job', a),
                       {| pools := pools w1; agents := agents w1;
                          jobs := <[spec := job']> (jobs w1);
                          runs := runs w1; tokens := tokens w1;
                          trace := trace w1 |})
            end) w
       end.

(** Modelled from the spec: [db.updateAgent],
    whose source is not available.  Spec, store adapter: as [updateJob]. *)
Definition db_updateAgent {A} (agentID : string)
    (fn : Agent → M world (result (Agent * A)))
  : M world (result (Agent * A)) :=
  λ w, match agents w !! agentID with
       | None => (Err ErrResourceNotFound, w)
       | Some agent =>
           (let* r := fn agent in
            match r with
            | Err err => ret (Err err)
            | Ok (agent', a) =>
                let* _ := emit (DbUpdateAgent agentID agent') in
                λ w1, (Ok (agent', a),
                       {| pools := pools w1;
                          agents := <[agentID := agent']> (agents w1);
                          jobs := jobs w1;
                          runs := runs w1; tokens := tokens w1;
                          trace := trace w1 |})
            end) w
       end.

(** Modelled from the spec: [db.getAllocatedAndSignaledJobs],
    whose source is not available.  Spec, store adapter: "returns jobs
    either in allocated state assigned to this agent, or running with
    non-null Signaled"; service contract: "Returns any allocated or
    signaled jobs currently assigned to the agent". *)
Definition allocatedOrSignaled (agentID : string) (job : Job) : bool :=
  bool_decide (AgentID job = Some agentID)
  && match Status job with
     | JobAllocated => true
     | JobRunning => bool_decide (Signaled job ≠ None)
     | _ => false
     end.

Definition db_getAllocatedAndSignaledJobs (agentID : string)
  : M world (result (list Job)) :=
  λ w, (Ok (List.filter (allocatedOrSignaled agentID)
              (map snd (map_to_list (jobs w)))), w).

(** *** Calls to the collaborators *)

Definition phases_StartPhase (runID : string) (phase : PhaseType)
  : M world (option error) :=
  let* _ := emit (CallStartPhase runID phase) in
  λ w, let '(r, rs) := StartPhase runID phase (runs w) in
       (r, {| pools := pools w; agents := agents w; jobs := jobs w;
              runs := rs; tokens := tokens w; trace := trace w |}).

Definition phases_FinishPhase (runID : string) (phase : PhaseType)
    (opts : PhaseFinishOptions) : M world (option error) :=
  let* _ := emit (CallFinishPhase runID phase opts) in
  λ w, let '(r, rs) := FinishPhase runID phase opts (runs w) in
       (r, {| pools := pools w; agents := agents w; jobs := jobs w;
              runs := rs; tokens := tokens w; trace := trace w |}).

Definition phases_Cancel (runID : string) : M world (option error) :=
  let* _ := emit (CallCancel runID) in
  λ w, let '(r, rs) := Cancel runID (runs w) in
       (r, {| pools := pools w; agents := agents w; jobs := jobs w;
              runs := rs; tokens := tokens w; trace := trace w |}).

Definition tokenFactory_createJobToken (spec : JobSpec)
  : M world (result bytes) :=
  let* _ := emit (CallCreateJobToken spec) in
  λ w, let '(r, ts) := createJobToken spec (tokens w) in
       (r, {| pools := pools w; agents := agents w; jobs := jobs w;
              runs := runs w; tokens := ts; trace := trace w |}).

(** *** Agent pools *)

(** [GetAgentPool] *)
Definition GetAgentPool (ctx : context) (poolID : string)
  : M world (result Pool) :=
  let* r := db_getPool poolID in
  match r with
  | Err err =>
      let* _ := logger LevelError "retrieving agent pool" in
      ret (Err err)
  | Ok pool =>
      match CanAccess ctx GetAgentPoolAction (pool_Organization pool) with
      | Err err => ret (Err err)
      | Ok subject =>
          let* _ := logger LevelDebug "retrieved agent pool" in
          ret (Ok pool)
      end
  end.

(** [deleteAgentPool]; the inner function literal comes first. *)
Definition deleteAgentPool_inner (ctx : context) (poolID : string)
  : M world (result Pool) :=
  let* r := db_getPool poolID in
  match r with
  | Err err => ret (Err err)
  | Ok pool =>
      match CanAccess ctx DeleteAgentPoolAction (pool_Organization pool) with
      | Err err => ret (Err err)
      | Ok subject =>
          if bool_decide (0 < length (AssignedWorkspaces pool))
          then ret (Err ErrCannotDeletePoolReferencedByWorkspaces)
          else
            let* r := db_deleteAgentPool (pool_ID pool) in
            match r with
            | Some err => ret (Err err)
            | None => ret (Ok pool)
            end
      end
  end.

Definition deleteAgentPool (ctx : context) (poolID : string)
  : M world (result Pool) :=
  let* r := deleteAgentPool_inner ctx poolID in
  match r with
  | Err err =>
      let* _ := logger LevelError "deleting agent pool" in
      ret (Err err)
  | Ok pool =>
      let* _ := logger LevelDebug "deleted agent pool" in
      ret (Ok pool)
  end.

(** [checkWorkspacePoolAccess]; [slices.Contains] is a membership test
    on the list. *)
Definition checkWorkspacePoolAccess (ctx : context) (ws : Workspace)
  : M world (option error) :=
  match ws_AgentPoolID ws with
  | None => ret None
  | Some poolID =>
      let* r := GetAgentPool ctx poolID in
      match r with
      | Err err => ret (Some err)
      | Ok pool =>
          if OrganizationScoped pool then ret None
          else if bool_decide (ws_ID ws ∈ AllowedWorkspaces pool)
               then ret None
               else ret (Some ErrWorkspaceNotAllowedToUsePool)
      end
  end.

(** *** Agents *)

(** The tail of [updateAgentStatus], after the type switch has set
    [isAgent]. *)
Definition updateAgentStatus_update (agentID : string) (to : AgentStatus)
    (isAgent : bool) : M world (option error) :=
  let* r := db_updateAgent agentID (λ agent,
              ret (match Agent_setStatus agent to isAgent with
                   | Err err => Err err
                   | Ok agent' => Ok (agent', agent_Status agent)
                   end)) in
  match r with
  | Err err =>
      let* _ := logger LevelError "updating agent status" in
      ret (Some err)
  | Ok (_, from) =>
      let* _ := (if isAgent && bool_decide (from = to)
                 then logger LevelDebug "received agent ping"
                 else logger LevelDebug "updated agent status") in
      ret None
  end.

(** [updateAgentStatus] *)
Definition updateAgentStatus (ctx : context) (agentID : string)
    (to : AgentStatus) : M world (option error) :=
  match SubjectFromContext ctx with
  | Err err => ret (Some err)
  | Ok subject =>
      match subject with
      | manager => updateAgentStatus_update agentID to false
      | serverAgent _ | poolAgent _ _ _ =>
          if bool_decide (Subject_String subject ≠ agentID)
          then ret (Some ErrAccessNotPermitted)
          else updateAgentStatus_update agentID to true
      | _ => ret (Some ErrAccessNotPermitted)
      end
  end.

(** *** Jobs *)

(** [cancelJob] *)
Definition cancelJob (ctx : context) (run : Run) : M world (option error) :=
  let spec := {| RunID := run_ID run; Phase := run_Phase run |} in
  let* r := db_updateJob spec (λ job, ret (Job_cancel job run)) in
  match r with
  | Err err =>
      if errors_Is err ErrResourceNotFound
      then ret None
      else
        let* _ := logger LevelError "canceling job" in
        ret (Some err)
  | Ok (job, signal) =>
      let* _ := match signal with
                | Some _ =>
                    logger LevelDebug "sending cancelation signal to job"
                | None => logger LevelInfo "canceled job"
                end in
      ret None
  end.

(** The [for event := range sub] loop of [getAgentJobs]; [sub] is what
    the subscription delivers before it is closed, and the final
    [return nil, nil] is the empty list. *)
Fixpoint getAgentJobs_wait (agentID : string) (sub : list (Event Job))
  : list Job :=
  match sub with
  | [] => []
  | event :: sub' =>
      let job := Payload event in
      if bool_decide (AgentID job = None)
         || bool_decide (AgentID job ≠ Some agentID)
      then getAgentJobs_wait agentID sub'
      else match Status job with
           | JobAllocated => [job]
           | JobRunning =>
               if bool_decide (Signaled job ≠ None) then [job]
               else getAgentJobs_wait agentID sub'
           | _ => getAgentJobs_wait agentID sub'
           end
  end.

(** The tail of [getAgentJobs], after the type switch. *)
Definition getAgentJobs_jobs (agentID : string) (sub : list (Event Job))
  : M world (result (list Job)) :=
  let* r := db_getAllocatedAndSignaledJobs agentID in
  match r with
  | Err err => ret (Err err)
  | Ok jobs =>
      if bool_decide (0 < length jobs) then ret (Ok jobs)
      else ret (Ok (getAgentJobs_wait agentID sub))
  end.

(** [getAgentJobs]; [sub] is the channel [WatchJobs] returns. *)
Definition getAgentJobs (ctx : context) (agentID : string)
    (sub : list (Event Job)) : M world (result (list Job)) :=
  match SubjectFromContext ctx with
  | Err err => ret (Err err)
  | Ok subject =>
      match subject with
      | serverAgent _ | poolAgent _ _ _ =>
          if bool_decide (Subject_String subject ≠ agentID)
          then ret (Err ErrAccessNotPermitted)
          else getAgentJobs_jobs agentID sub
      | _ => ret (Err ErrAccessNotPermitted)
      end
  end.

(** [startJob] *)
Definition startJob (ctx : context) (spec : JobSpec)
  : M world (result bytes) :=
  match registeredAgentFromContext ctx with
  | Err _ => ret (Err ErrAccessNotPermitted)
  | Ok subject =>
      let* r := db_updateJob spec (λ job,
        if bool_decide (AgentID job = None)
           || bool_decide (AgentID job ≠ Some (Subject_String subject))
        then ret (Err ErrAccessNotPermitted)
        else
          match Job_startJob job with
          | Err err => ret (Err err)
          | Ok job' =>
              let* r := phases_StartPhase (RunID spec) (Phase spec) in
              match r with
              | Some err => ret (Err err)
              | None =>
                  let* r := tokenFactory_createJobToken spec in
                  match r with
                  | Err err => ret (Err err)
                  | Ok token => ret (Ok (job', token))
                  end
              end
          end) in
      match r with
      | Err err =>
          let* _ := logger LevelError "starting job" in
          ret (Err err)
      | Ok (_, token) =>
          let* _ := logger LevelDebug "started job" in
          ret (Ok token)
      end
  end.

Record finishJobOptions : Type := mkFinishJobOptions {
  opts_Status : JobStatus;
  opts_Error : string;
}.

(** [finishJob] *)
Definition finishJob (ctx : context) (spec : JobSpec)
    (opts : finishJobOptions) : M world (option error) :=
  match SubjectFromContext ctx with
  | Err _ => ret (Some ErrAccessNotPermitted)
  | Ok subject =>
      match subject with
      | JobSubject _ =>
          let* r := db_updateJob spec (λ job,
            let* err :=
              match opts_Status opts with
              | JobFinished | JobErrored =>
                  phases_FinishPhase (RunID spec) (Phase spec)
                    {| Errored :=
                         bool_decide (opts_Status opts = JobErrored) |}
              | JobCanceled => phases_Cancel (RunID spec)
              | _ => ret None
              end in
            match err with
            | Some err => ret (Err err)
            | None =>
                ret (match Job_finishJob job (opts_Status opts) with
                     | Err err => Err err
                     | Ok job' => Ok (job', tt)
                     end)
            end) in
          match r with
          | Err err =>
              let* _ := logger LevelError "finishing job" in
              ret (Some err)
          | Ok (job, _) =>
              let* _ := (if bool_decide (opts_Error opts ≠ "")
                         then logger LevelDebug "finished job with error"
                         else logger LevelDebug "finished job") in
              ret None
          end
      | _ => ret (Some ErrAccessNotPermitted)
      end
  end.

End Service.

Arguments world R T : clear implicits.

End Agent.

(** * Sample collaborators and worlds *)

Module Samples.
Import Agent.

Definition b (s : string) : bytes := String.list_byte_of_string s.

(** A run service that accepts every call, and one that refuses them. *)
Definition okPhases : phaseClient unit :=
  {| StartPhase := λ _ _ r, (None, r);
     FinishPhase := λ _ _ _ r, (None, r);
     Cancel := λ _ r, (None, r) |}.

Definition downPhases : phaseClient unit :=
  {| StartPhase := λ _ _ r, (Some (ErrorString "run service down"), r);
     FinishPhase := λ _ _ _ r, (Some (ErrorString "run service down"), r);
     Cancel := λ _ r, (Some (ErrorString "run service down"), r) |}.

(** A token service that numbers its tokens. *)
Definition countingTokens : tokenFactory nat :=
  {| createJobToken := λ spec n,
       (Ok (b (RunID spec +:+ "/" +:+ Phase spec)), S n) |}.

(** An authorizer that lets every subject through, and one that lets
    nobody through. *)
Definition allowAll : Authorizer :=
  {| CanAccess := λ ctx _ _,
       match ctx_subject ctx with
       | Some s => Ok s
       | None => Err ErrAccessNotPermitted
       end |}.

Definition denyAll : Authorizer :=
  {| CanAccess := λ _ _ _, Err ErrAccessNotPermitted |}.

(** Sample state machines for the three transitions the service takes as
    parameters. *)
Definition sample_finishJob (j : Job) (to : JobStatus) : result Job :=
  match Status j, to with
  | JobRunning, (JobFinished | JobErrored | JobCanceled) =>
      Ok (set_Status to j)
  | _, _ => Err ErrInvalidStateTransition
  end.

Definition sample_cancel (j : Job) (run : Run) : result (Job * option bool) :=
  match Status j with
  | JobUnallocated => Ok (set_Status JobCanceled j, None)
  | JobRunning =>
      Ok ({| Spec := Spec j; Status := Status j; AgentID := AgentID j;
             Signaled := Some (run_ForceCanceled run);
             WorkspaceID := WorkspaceID j;
             Organization := Organization j |},
          Some (run_ForceCanceled run))
  | _ => Err ErrInvalidStateTransition
  end.

Definition sample_setStatus (a : Agent) (to : AgentStatus) (isAgent : bool)
  : result Agent :=
  match agent_Status a with
  | AgentErrored | AgentExited => Err ErrInvalidStateTransition
  | _ =>
      Ok {| agent_ID := agent_ID a; agent_Status := to;
            MaxJobs := MaxJobs a; CurrentJobs := CurrentJobs a;
            AgentPoolID := AgentPoolID a;
            LastPingAt := LastPingAt a; LastStatusAt := LastStatusAt a |}
  end.

Definition agentA : Agent :=
  {| agent_ID := "agent-A"; agent_Status := AgentIdle; MaxJobs := 2;
     CurrentJobs := 1; AgentPoolID := None;
     LastPingAt := 0; LastStatusAt := 0 |}.

Definition agentB : Agent :=
  {| agent_ID := "agent-B"; agent_Status := AgentIdle; MaxJobs := 1;
     CurrentJobs := 0; AgentPoolID := None;
     LastPingAt := 0; LastStatusAt := 0 |}.

Definition specJ1 : JobSpec := {| RunID := "run-1"; Phase := "plan" |}.

Definition jobAt (st : JobStatus) (agentID : option string)
    (signaled : option bool) : Job :=
  {| Spec := specJ1; Status := st; AgentID := agentID;
     Signaled := signaled; WorkspaceID := "ws-1"; Organization := "acme" |}.

Definition poolP (scoped : bool) (allowed assigned : list string) : Pool :=
  {| pool_ID := "pool-1"; pool_Name := "default"; pool_Organization := "acme";
     OrganizationScoped := scoped; AllowedWorkspaces := allowed;
     AssignedWorkspaces := assigned |}.

Definition asSubject (s : Subject) : context := {| ctx_subject := Some s |}.

Definition worldOf (ps : list (string * Pool)) (ags : list (string * Agent))
    (js : list (JobSpec * Job)) : world unit nat :=
  {| pools := list_to_map ps; agents := list_to_map ags;
     jobs := list_to_map js; runs := tt; tokens := 0%nat; trace := [] |}.

(** A log store holding one fixed log, and the proxy in front of it. *)
Definition fixedStore (logs : bytes) : Logs.proxydb unit :=
  {| Logs.getLogs := λ _ _ d, (Ok logs, d);
     Logs.put := λ _ d, (Ok "chunk-1", d) |}.

Definition downStore : Logs.proxydb unit :=
  {| Logs.getLogs := λ _ _ d, (Err (ErrorString "store down"), d);
     Logs.put := λ _ d, (Err (ErrorString "store down"), d) |}.

Definition proxyOf (cached : list (string * bytes))
    (accepts : string → bytes → bool) : Logs.proxy unit :=
  {| Logs.cache := {| Logs.entries := list_to_map cached;
                      Logs.accepts := accepts |};
     Logs.db := tt; Logs.trace := [] |}.

End Samples.

(** * The agent service, continued: allocation, registration and the
      agent-token authenticator *)

Module AgentMore.
Import Agent.

(** A Go call returns, or panics. *)
Inductive outcome (A : Type) : Type :=
| Returns (a : A)
| Panics (msg : string).
Arguments Returns {A} a.
Arguments Panics {A} msg.

(** The run-time error of dereferencing a nil pointer. *)
Definition nilDereference : string :=
  "runtime error: invalid memory address or nil pointer dereference".

(** [registerAgentOptions]: the pool the agent asks to join, and the rest
    of the request, which the service only passes on. *)
Record registerAgentOptions (O : Type) : Type := mkRegisterAgentOptions {
  reg_AgentPoolID : option string;
  reg_details : O;
}.
Arguments mkRegisterAgentOptions {O} _ _.
Arguments reg_AgentPoolID {O} _.
Arguments reg_details {O} _.

(** [http.Header], keyed by canonical header name; [Get] gives the empty
    string for a header that is not there. *)
Definition Header_Get (headers : gmap string string) (key : string)
  : string :=
  default "" (headers !! key).

Section Service.
Context {R T : Type} {PC : phaseClient R} {TF : tokenFactory T}
  {AZ : Authorizer}.

(** More of the job state machine, as parameters: [job.allocate(agentID)]
    and [job.reallocate(agentID)]. *)
Variable Job_allocate : Job → string → result Job.
Variable Job_reallocate : Job → string → result Job.

(** [registrar.register(ctx, opts)], whose source is not available: it
    builds the agent from the options, and may read or change anything. *)
Context {O : Type}.
Variable register : registerAgentOptions O → M (world R T) (result Agent).

(** [db.getPoolByTokenID], whose source is not available: a read of the
    store. *)
Variable db_getPoolByTokenID : string → world R T → result Pool.

(** The name of the header in which a registered agent sends its ID. *)
Variable agentIDHeader : string.

(** Modelled from the spec: [db.updateJob], whose source is not
    available, for a mutator that may panic.  Spec, store adapter: "load
    row with FOR UPDATE, run the mutator on the in-memory value, persist
    iff mutator returns no error"; a panic in the mutator leaves through
    [updateJob] before anything is persisted. *)
Definition db_updateJob_unwinding {A} (spec : JobSpec)
    (fn : Job → M (world R T) (outcome (result (Job * A))))
  : M (world R T) (outcome (result (Job * A))) :=
  λ w, match jobs w !! spec with
       | None => (Returns (Err ErrResourceNotFound), w)
       | Some job =>
           (let* o := fn job in
            match o with
            | Panics msg => ret (Panics msg)
            | Returns (Err err) => ret (Returns (Err err))
            | Returns (Ok (job', a)) =>
                let* _ := emit (DbUpdateJob spec job') in
                λ w1, (Returns (Ok (job', a)),
                       {| pools := pools w1; agents := agents w1;
                          jobs := <[spec := job']> (jobs w1);
                          runs := runs w1; tokens := tokens w1;
                          trace := trace w1 |})
            end) w
       end.

(** Modelled from the spec: [db.getAgent], whose source is not
    available.  Spec, store adapter: "typed CRUD for each entity"; error
    taxonomy: a missing entity surfaces "as ErrResourceNotFound". *)
Definition db_getAgent (agentID : string) : M (world R T) (result Agent) :=
  λ w, (match agents w !! agentID with
        | Some agent => Ok agent
        | None => Err ErrResourceNotFound
        end, w).

(** Modelled from the spec: [db.createAgent] inside [db.Tx], whose
    sources are not available.  Spec, store adapter: "typed CRUD for each
    entity"; "Tx(ctx, fn) -- execute fn atomically". *)
Definition db_createAgent (agent : Agent) : M (world R T) (option error) :=
  λ w, (None, {| pools := pools w;
                 agents := <[agent_ID agent := agent]> (agents w);
                 jobs := jobs w; runs := runs w; tokens := tokens w;
                 trace := trace w |}).

(** [getAgent] *)
Definition getAgent (agentID : string) : M (world R T) (result Agent) :=
  db_getAgent agentID.

(** [allocateJob] *)
Definition allocateJob (spec : JobSpec) (agentID : string)
  : M (world R T) (result Job) :=
  let* r := db_updateJob spec (λ job,
              ret (match Job_allocate job agentID with
                   | Err err => Err err
                   | Ok job' => Ok (job', tt)
                   end)) in
  match r with
  | Err err =>
      let* _ := logger LevelError "allocating job" in
      ret (Err err)
  | Ok (allocated, _) =>
      let* _ := logger LevelInfo "allocated job" in
      ret (Ok allocated)
  end.

(** [reallocateJob]; the mutator's [from = *job.AgentID] dereferences the
    job's agent before [job.reallocate] is asked. *)
Definition reallocateJob (spec : JobSpec) (agentID : string)
  : M (world R T) (outcome (result Job)) :=
  let* o := db_updateJob_unwinding spec (λ job,
              match AgentID job with
              | None => ret (Panics nilDereference)
              | Some from =>
                  ret (Returns (match Job_reallocate job agentID with
                                | Err err => Err err
                                | Ok job' => Ok (job', from)
                                end))
              end) in
  match o with
  | Panics msg => ret (Panics msg)
  | Returns (Err err) =>
      let* _ := logger LevelError "re-allocating job" in
      ret (Returns (Err err))
  | Returns (Ok (reallocated, from)) =>
      let* _ := logger LevelInfo "re-allocated job" in
      ret (Returns (Ok reallocated))
  end.

(** [registerAgent]; the inner function literal comes first.  The type
    switch lets the two unregistered subjects through, and for a pool
    agent overwrites the requested pool with the pool of its token. *)
Definition registerAgent_inner (ctx : context)
    (opts : registerAgentOptions O) : M (world R T) (result Agent) :=
  match SubjectFromContext ctx with
  | Err err => ret (Err err)
  | Ok subject =>
      let switch :=
        match subject with
        | unregisteredServerAgent => Ok opts
        | unregisteredPoolAgent pool _ =>
            Ok {| reg_AgentPoolID := Some (pool_ID pool);
                  reg_details := reg_details opts |}
        | _ => Err ErrUnauthorizedAgentRegistration
        end in
      match switch with
      | Err err => ret (Err err)
      | Ok opts =>
          let* r := register opts in
          match r with
          | Err err => ret (Err err)
          | Ok agent =>
              let* r := db_createAgent agent in
              match r with
              | Some err => ret (Err err)
              | None => ret (Ok agent)
              end
          end
      end
  end.

Definition registerAgent (ctx : context) (opts : registerAgentOptions O)
  : M (world R T) (result Agent) :=
  let* r := registerAgent_inner ctx opts in
  match r with
  | Err err =>
      let* _ := logger LevelError "registering agent" in
      ret (Err err)
  | Ok agent =>
      let* _ := logger LevelInfo "registered agent" in
      ret (Ok agent)
  end.

(** The function [NewService] registers for [AgentTokenKind]: from an
    agent token's ID, and the headers of the request if it carries any, to
    the subject of the call. *)
Definition agentTokenSubject (tokenID : string)
    (headers : result (gmap string string))
  : M (world R T) (result Subject) :=
  λ w, match db_getPoolByTokenID tokenID w with
       | Err err => (Err err, w)
       | Ok pool =>
           match headers with
           | Err err => (Err err, w)
           | Ok headers =>
               let agentID := Header_Get headers agentIDHeader in
               if bool_decide (agentID ≠ "")
               then
                 (let* r := getAgent agentID in
                  match r with
                  | Err err =>
                      ret (Err (ErrorWrap
                        "retrieving agent corresponding to ID found in http header"
                        err))
                  | Ok agent => ret (Ok (poolAgent agent pool tokenID))
                  end) w
               else (Ok (unregisteredPoolAgent pool tokenID), w)
           end
       end.

End Service.
End AgentMore.

(** * Generated URL paths for modules ([paths], generated by "go generate") *)

Module Paths.

(** [fmt.Sprintf] with [%s] verbs and string arguments is concatenation. *)

Definition Modules (organization : string) : string :=
  "/app/organizations/" +:+ organization +:+ "/modules".

Definition CreateModule (organization : string) : string :=
  "/app/organizations/" +:+ organization +:+ "/modules/create".

Definition NewModule (organization : string) : string :=
  "/app/organizations/" +:+ organization +:+ "/modules/new".

(** [Module] in the source; the name is a keyword here. *)
Definition Module' (module : string) : string :=
  "/app/modules/" +:+ module.

Definition EditModule (module : string) : string :=
  "/app/modules/" +:+ module +:+ "/edit".

Definition UpdateModule (module : string) : string :=
  "/app/modules/" +:+ module +:+ "/update".

Definition DeleteModule (module : string) : string :=
  "/app/modules/" +:+ module +:+ "/delete".

Definition RefreshModule (module : string) : string :=
  "/app/modules/" +:+ module +:+ "/refresh".

End Paths.

(** * The migration tool's logger ([internal/sql/goose_logger.go]) *)

Module GooseLogger.

Definition newline : Ascii.ascii := Ascii.ascii_of_nat 10.

(** Go's [strings.Trim(s, cutset)] for a cutset of one ASCII byte, the
    case the logger uses: [trimLeftByte(trimRightByte(s, c), c)]. *)
Fixpoint trimLeftByte (s : string) (c : Ascii.ascii) : string :=
  match s with
  | String a s' => if Ascii.eqb a c then trimLeftByte s' c else s
  | "" => ""
  end.

Fixpoint trimRightByte (s : string) (c : Ascii.ascii) : string :=
  match s with
  | String a s' =>
      match trimRightByte s' c with
      | "" => if Ascii.eqb a c then "" else String a ""
      | kept => String a kept
      end
  | "" => ""
  end.

Definition strings_Trim (s : string) (c : Ascii.ascii) : string :=
  trimLeftByte (trimRightByte s c) c.

Section Logger.
(** The arguments are Go values of any type; [fmt.Sprint] and
    [fmt.Sprintf] turn them into text. *)
Context {V : Type}.
Variable fmt_Sprint : list V → string.
Variable fmt_Sprintf : string → list V → string.

(** What the embedded [*slog.Logger] has been given. *)
Definition Logger : Type := list (LogLevel * string).

Definition Logger_Error (msg : string) : M Logger unit :=
  λ l, (tt, l ++ [(LevelError, msg)]).

Definition Logger_Info (msg : string) : M Logger unit :=
  λ l, (tt, l ++ [(LevelInfo, msg)]).

Definition Fatal (v : list V) : M Logger unit :=
  Logger_Error (fmt_Sprint v).

Definition Fatalf (msg : string) (v : list V) : M Logger unit :=
  Logger_Error (fmt_Sprintf msg v).

Definition Print (v : list V) : M Logger unit :=
  Logger_Info (fmt_Sprint v).

Definition Println (v : list V) : M Logger unit :=
  Logger_Info (fmt_Sprint v).

Definition Printf (msg : string) (v : list V) : M Logger unit :=
  let trimmed := strings_Trim msg newline in
  Logger_Info (fmt_Sprintf trimmed v).

End Logger.
End GooseLogger.

(** * The latest-version checker of package [releases] *)

Module Releases.

Definition DefaultTerraformVersion : string := "1.6.0".

(** What the service does to its database, to the endpoint and to its
    logger, in order. *)
Inductive Effect : Type :=
| DbGetLatest
| DbUpdateLatestVersion (version : string)
| EndpointCheck
| LogDebug (msg : string)
| LogError (msg : string) (err : error).

Section Service.
(** [time.Time] with its zero value, the state [D] of the database and
    the state [E] of the world behind the endpoint. *)
Context {Time D E : Type}.
Variable zeroTime : Time.

(** The methods of [db] and of [latestChecker], and [semver.Compare]:
    their sources are not available, and the service only calls them. *)
Variable db_getLatest : D → result (string * Time) * D.
Variable db_updateLatestVersion : string → D → option error * D.
Variable latestChecker_check : Time → E → result string * E.
Variable semver_Compare : string → string → Z.

Record Service : Type := mkService {
  db : D;
  endpoint : E;
  trace : list Effect;
}.

Definition emit (e : Effect) : M Service unit :=
  λ s, (tt, {| db := db s; endpoint := endpoint s;
               trace := trace s ++ [e] |}).

Definition s_db_getLatest : M Service (result (string * Time)) :=
  let* _ := emit DbGetLatest in
  λ s, let '(r, d) := db_getLatest (db s) in
       (r, {| db := d; endpoint := endpoint s; trace := trace s |}).

Definition s_db_updateLatestVersion (v : string)
  : M Service (option error) :=
  let* _ := emit (DbUpdateLatestVersion v) in
  λ s, let '(r, d) := db_updateLatestVersion v (db s) in
       (r, {| db := d; endpoint := endpoint s; trace := trace s |}).

Definition s_latestChecker_check (checkpoint : Time)
  : M Service (result string) :=
  let* _ := emit EndpointCheck in
  λ s, let '(r, e) := latestChecker_check checkpoint (endpoint s) in
       (r, {| db := db s; endpoint := e; trace := trace s |}).

(** [GetLatest]: the Go triple [(string, time.Time, error)]. *)
Definition GetLatest : M Service (string * Time * option error) :=
  let* r := s_db_getLatest in
  match r with
  | Err err =>
      if errors_Is err ErrResourceNotFound
      then ret (DefaultTerraformVersion, zeroTime, None)
      else ret ("", zeroTime, Some err)
  | Ok (latest, checkpoint) => ret (latest, checkpoint, None)
  end.

(** The inner function literal of [check] in [StartLatestChecker]. *)
Definition check_inner : M Service (option error) :=
  let* r := GetLatest in
  match r with
  | (_, _, Some err) => ret (Some err)
  | (before, checkpoint, None) =>
      let* r := s_latestChecker_check checkpoint in
      match r with
      | Err err => ret (Some err)
      | Ok after =>
          if bool_decide (after = "") then ret None
          else if bool_decide (semver_Compare after before < 0)%Z
          then ret (Some (ErrorString
                 ("endpoint returned older version: before: " +:+ before
                  +:+ "; after: " +:+ after)))
          else
            let* r := s_db_updateLatestVersion after in
            match r with
            | Some err => ret (Some err)
            | None =>
                let* _ := emit (LogDebug
                                  "checked latest terraform version") in
                ret None
            end
      end
  end.

(** [check] in [StartLatestChecker]: one check, its error logged. *)
Definition check : M Service unit :=
  let* r := check_inner in
  match r with
  | Some err => emit (LogError "checking latest terraform version" err)
  | None => ret tt
  end.

(** [StartLatestChecker]: one check at startup, and one for each tick of
    the five-minute ticker that arrives before the context is done. *)
Fixpoint ticking (ticks : nat) : M Service unit :=
  match ticks with
  | O => ret tt
  | S ticks => let* _ := check in ticking ticks
  end.

Definition StartLatestChecker (ticks : nat) : M Service unit :=
  let* _ := check in ticking ticks.

End Service.

Arguments Service D E : clear implicits.

End Releases.

(** * The handler of VCS webhook events ([internal/repohooks/handlers.go]) *)

Module RepoHooks.

(** [handlerPrefix] *)
Definition handlerPrefix : string := "/webhooks/vcs".

(** [net/http] status codes the handler uses. *)
Definition StatusBadRequest : nat := 400.
Definition StatusNotFound : nat := 404.
Definition StatusUnprocessableEntity : nat := 422.

(** The fields of [hook] the handler reads. *)
Record hook : Type := mkHook {
  cloud : string;
  secret : string;
  repoPath : string;
  vcsProviderID : string;
}.

(** [vcs.Event]: the header's provider ID and the payload. *)
Record Event (Payload : Type) : Type := mkEvent {
  VCSProviderID : string;
  EventPayload : Payload;
}.
Arguments mkEvent {Payload} _ _.
Arguments VCSProviderID {Payload} _.
Arguments EventPayload {Payload} _.

(** What the handler does to the response, the logger and the
    publisher, in order; [HttpError] is a call of [http.Error]. *)
Inductive Effect (Payload : Type) : Type :=
| HttpError (msg : string) (code : nat)
| LogDebug (msg : string)
| LogInfo (msg : string)
| LogError (msg : string)
| Publish (event : Event Payload).
Arguments HttpError {Payload} _ _.
Arguments LogDebug {Payload} _.
Arguments LogInfo {Payload} _.
Arguments LogError {Payload} _.
Arguments Publish {Payload} _.

(** The [handlerDB] interface, over the state [D] of the database. *)
Class handlerDB (U D : Type) : Type := {
  getHookByID : U → D → result hook * D;
}.

Section Handlers.
(** Requests, webhook IDs ([uuid.UUID]) and event payloads. *)
Context {Request U Payload D : Type} {DB : handlerDB U D}.

(** [err.Error()], and [errors.As(err, &ignore)] for an [ignore] of type
    [vcs.ErrIgnoreEvent]. *)
Variable Error_ : error → string.
Variable As_ErrIgnoreEvent : error → bool.

(** [decode.All(&opts, r)], as far as the handler uses it: the webhook
    ID in the request's path, or an error. *)
Variable decode_All : Request → result U.

(** [EventUnmarshaler] *)
Definition EventUnmarshaler : Type := Request → string → result Payload.

(** The [handlers] struct: the unmarshalers registered per cloud, the
    database, and the trace of effects. *)
Record handlers : Type := mkHandlers {
  cloudHandlers : gmap string EventUnmarshaler;
  db : D;
  trace : list (Effect Payload);
}.

Definition emit (e : Effect Payload) : M handlers unit :=
  λ h, (tt, {| cloudHandlers := cloudHandlers h; db := db h;
               trace := trace h ++ [e] |}).

Definition h_getHookByID (id : U) : M handlers (result hook) :=
  λ h, let '(r, d) := getHookByID id (db h) in
       (r, {| cloudHandlers := cloudHandlers h; db := d;
              trace := trace h |}).

(** [repohookHandler] *)
Definition repohookHandler (r : Request) : M handlers unit :=
  match decode_All r with
  | Err err => emit (HttpError (Error_ err) StatusUnprocessableEntity)
  | Ok id =>
      let* found := h_getHookByID id in
      match found with
      | Err err => emit (HttpError (Error_ err) StatusNotFound)
      | Ok hook =>
          let* _ := emit (LogDebug "received vcs event") in
          λ h,
            match cloudHandlers h !! cloud hook with
            | None =>
                (let* _ := emit (LogError
                             "no event unmarshaler found for event") in
                 emit (HttpError "no event unmarshaler found for event"
                         StatusNotFound)) h
            | Some cloudHandler =>
                match cloudHandler r (secret hook) with
                | Err err =>
                    if As_ErrIgnoreEvent err
                    then emit (LogInfo ("ignoring event: " +:+ Error_ err)) h
                    else
                      (let* _ := emit (LogError "handling vcs event") in
                       emit (HttpError (Error_ err) StatusBadRequest)) h
                | Ok payload =>
                    emit (Publish {| VCSProviderID := vcsProviderID hook;
                                     EventPayload := payload |}) h
                end
            end
      end
  end.

End Handlers.

Arguments handlers Request Payload D : clear implicits.

End RepoHooks.

(** * More sample collaborators *)

Module MoreSamples.
Import Agent AgentMore Samples.

(** A registrar that builds the agent from the requested pool alone. *)
Definition sample_register (opts : registerAgentOptions unit)
  : M (world unit nat) (result Agent) :=
  λ w, (Ok {| agent_ID := "agent-new"; agent_Status := AgentIdle;
              MaxJobs := 1; CurrentJobs := 0;
              AgentPoolID := reg_AgentPoolID opts;
              LastPingAt := 0; LastStatusAt := 0 |}, w).

(** Reallocation as the spec's table has it: an allocated job moves to
    the new agent. *)
Definition sample_reallocate (j : Job) (agentID : string) : result Job :=
  match Status j with
  | JobAllocated =>
      Ok {| Spec := Spec j; Status := JobAllocated;
            AgentID := Some agentID; Signaled := Signaled j;
            WorkspaceID := WorkspaceID j; Organization := Organization j |}
  | _ => Err ErrInvalidStateTransition
  end.

(** A token table with one token, of pool "pool-1". *)
Definition sample_getPoolByTokenID (tokenID : string) (w : world unit nat)
  : result Pool :=
  if bool_decide (tokenID = "token-1")
  then match pools w !! "pool-1" with
       | Some pool => Ok pool
       | None => Err ErrResourceNotFound
       end
  else Err ErrResourceNotFound.

Definition sample_agentIDHeader : string := "Agent-Id".

(** A webhook database with one hook, and a request type that carries
    the webhook ID and the body. *)
Definition sample_hook : RepoHooks.hook :=
  {| RepoHooks.cloud := "github"; RepoHooks.secret := "s3cret";
     RepoHooks.repoPath := "acme/infra";
     RepoHooks.vcsProviderID := "vcs-1" |}.

End MoreSamples.


(** * Properties of the log proxy *)

Module LogsProps.
Import Logs.

(** The cache writes among a run of effects, in order. *)
Definition writes (tr : list Effect) : list (string * bytes) :=
  omap (λ e, match e with CacheSet k v => Some (k, v) | _ => None end) tr.

(** The cache reads among a run of effects. *)
Definition reads (tr : list Effect) : list string :=
  omap (λ e, match e with CacheGet k => Some k | _ => None end) tr.

Ltac run_proxy :=
  cbv beta iota zeta delta
    [Start_chunk get proxy_put IsStart bind ret p_cache_Get p_cache_Set
     p_db_getLogs p_db_put logger_Error emit Cache_Get Cache_Set];
  simpl.

Section Proxy.
Context {D : Type} {DB : proxydb D}.

(** From [p] to [p'] exactly one cache write was issued, [Set(key, v)];
    where the cache takes it, [key] now holds [v] (whatever it held
    before) and no other entry moved. *)
Definition sets_entry (key : string) (v : bytes) (p p' : proxy D) : Prop :=
  (∃ new, trace p' = trace p ++ new ∧ writes new = [(key, v)])
  ∧ (accepts (cache p) key v = true →
     entries (cache p') = <[key := v]> (entries (cache p))).

Lemma sets_entry_lookup key v (p p' : proxy D) :
  sets_entry key v p p' →
  accepts (cache p) key v = true →
  entries (cache p') !! key = Some v.
Proof. intros [_ H] Hacc. rewrite (H Hacc). apply lookup_insert_eq. Qed.

(** One step of [Start] is a step of its loop body. *)
Lemma Start_cons event sub (p : proxy D) :
  Start (event :: sub) p =
  match Start_chunk (Payload event) p with
  | (Some err, p') => (err, p')
  | (None, p') => Start sub p'
  end.
Proof.
  simpl. unfold bind. by destruct (Start_chunk _ p) as [[e|] p'].
Qed.

Lemma Start_nil (p : proxy D) : Start [] p = (ErrSubscriptionTerminated, p).
Proof. done. Qed.

(** The bytes [slice lo hi] keeps are those at the positions
    [lo <= k < hi] of the input; positions past its end hold nothing. *)
Lemma slice_lookup (lo hi : Z) (data : bytes) (i : nat) :
  (0 ≤ lo)%Z →
  slice lo hi data !! i =
  if decide (lo + Z.of_nat i < hi)%Z
  then data !! (Z.to_nat lo + i)%nat else None.
Proof.
  intros Hlo. unfold slice.
  set (len := Z.of_nat (length data)).
  destruct (decide (lo + Z.of_nat i < hi)%Z) as [Hlt|Hge].
  - destruct (decide (lo + Z.of_nat i < len)%Z) as [Hin|Hout].
    + rewrite lookup_take_lt by lia.
      rewrite lookup_drop. f_equal. lia.
    + rewrite (proj2 (lookup_ge_None data (Z.to_nat lo + i)))
        by (subst len; lia).
      apply lookup_ge_None. rewrite length_take, length_drop.
      subst len. lia.
  - apply lookup_ge_None. rewrite length_take, length_drop.
    subst len. lia.
Qed.

Ltac close_sets_entry :=
  unfold sets_entry; simpl;
  repeat split; try done; try congruence;
  eexists; (split; [by rewrite <- ?app_assoc | done]).

Lemma Start_chunk_start (chunk : Chunk) (p : proxy D) :
  Offset chunk = 0%Z →
  (Start_chunk chunk p).1 = None
  ∧ sets_entry (cacheKey (RunID chunk) (Phase chunk)) (Data chunk) p
      (Start_chunk chunk p).2.
Proof.
  intros H0. run_proxy. rewrite bool_decide_eq_true_2 by done.
  destruct (accepts _ _ _) eqn:Hacc; close_sets_entry.
Qed.

Lemma Start_chunk_hit (chunk : Chunk) (p : proxy D) existing :
  Offset chunk ≠ 0%Z →
  entries (cache p) !! cacheKey (RunID chunk) (Phase chunk)
    = Some existing →
  (Start_chunk chunk p).1 = None
  ∧ sets_entry (cacheKey (RunID chunk) (Phase chunk))
      (existing ++ Data chunk) p (Start_chunk chunk p).2.
Proof.
  intros H0 Hhit. run_proxy. rewrite bool_decide_eq_false_2 by done.
  rewrite Hhit; simpl.
  destruct (accepts _ _ _) eqn:Hacc; close_sets_entry.
Qed.

Lemma Start_chunk_miss (chunk : Chunk) (p : proxy D) logs d :
  Offset chunk ≠ 0%Z →
  entries (cache p) !! cacheKey (RunID chunk) (Phase chunk) = None →
  getLogs (RunID chunk) (Phase chunk) (db p) = (Ok logs, d) →
  (Start_chunk chunk p).1 = None
  ∧ sets_entry (cacheKey (RunID chunk) (Phase chunk)) logs p
      (Start_chunk chunk p).2
  ∧ db (Start_chunk chunk p).2 = d.
Proof.
  intros H0 Hmiss Hlogs. run_proxy. rewrite bool_decide_eq_false_2 by done.
  rewrite Hmiss; simpl. rewrite Hlogs; simpl.
  destruct (accepts _ _ _) eqn:Hacc; close_sets_entry.
Qed.

(** A failed fetch ends [Start] with the store's error and leaves the
    cache alone. *)
Lemma Start_chunk_miss_fetch_fails (chunk : Chunk) (p : proxy D) err d :
  Offset chunk ≠ 0%Z →
  entries (cache p) !! cacheKey (RunID chunk) (Phase chunk) = None →
  getLogs (RunID chunk) (Phase chunk) (db p) = (Err err, d) →
  (Start_chunk chunk p).1 = Some err
  ∧ cache (Start_chunk chunk p).2 = cache p.
Proof.
  intros H0 Hmiss Hlogs. run_proxy. rewrite bool_decide_eq_false_2 by done.
  rewrite Hmiss; simpl. by rewrite Hlogs.
Qed.

(** C3.  For a chunk the [Start] loop processes, with [key] the cache
    key [<runID>.<phase>.log] of the chunk: if [Offset = 0] the loop
    writes exactly the chunk's [Data] under [key], replacing whatever was
    cached; if [Offset <> 0] and [key] is cached it writes the cached
    bytes followed by [Data]; if [Offset <> 0] and [key] is not cached it
    writes the full log it fetches from the store.  In each case this is
    the only cache write, the loop goes on, and a cache that takes the
    write holds the value under [key] afterwards. *)
Theorem Start_chunk_cache (chunk : Chunk) (p : proxy D) :
  let key := cacheKey (RunID chunk) (Phase chunk) in
  let p' := (Start_chunk chunk p).2 in
  (Offset chunk = 0%Z →
     (Start_chunk chunk p).1 = None
     ∧ sets_entry key (Data chunk) p p')
  ∧ (∀ existing,
       Offset chunk ≠ 0%Z →
       entries (cache p) !! key = Some existing →
       (Start_chunk chunk p).1 = None
       ∧ sets_entry key (existing ++ Data chunk) p p')
  ∧ (∀ logs d,
       Offset chunk ≠ 0%Z →
       entries (cache p) !! key = None →
       getLogs (RunID chunk) (Phase chunk) (db p) = (Ok logs, d) →
       (Start_chunk chunk p).1 = None
       ∧ sets_entry key logs p p').
Proof.
  intros key p'. split; [|split].
  - apply Start_chunk_start.
  - intros existing. apply Start_chunk_hit.
  - intros logs d H0 Hmiss Hlogs.
    destruct (Start_chunk_miss chunk p logs d H0 Hmiss Hlogs) as (?&?&?).
    done.
Qed.

(** C8.  [get] on a cached key uses the cached bytes and nothing else;
    on a miss it fetches the bytes from the store and issues the cache
    write for them.  Either way the chunk returned carries those bytes
    cut to the positions [Offset <= k < Offset + Limit] (clipped to the
    bytes there are), and whether the cache takes the write or not the
    call returns that chunk, not an error. *)
Theorem get_chunk (opts : GetChunkOptions) (p : proxy D) :
  let key := cacheKey (get_RunID opts) (get_Phase opts) in
  let cut data :=
    {| RunID := get_RunID opts; Phase := get_Phase opts;
       Data := slice (get_Offset opts) (get_Offset opts + Limit opts) data;
       Offset := 0 |} in
  (∀ data,
     entries (cache p) !! key = Some data →
     get opts p =
     (Ok (cut data),
      {| cache := cache p; db := db p;
         trace := trace p ++ [CacheGet key] |}))
  ∧ (∀ data d,
       entries (cache p) !! key = None →
       getLogs (get_RunID opts) (get_Phase opts) (db p) = (Ok data, d) →
       (get opts p).1 = Ok (cut data)
       ∧ sets_entry key data p (get opts p).2
       ∧ db (get opts p).2 = d
       ∧ (accepts (cache p) key data = false →
          cache (get opts p).2 = cache p)).
Proof.
  intros key cut. split.
  - intros data Hhit. run_proxy. fold key. by rewrite Hhit.
  - intros data d Hmiss Hlogs. run_proxy. fold key.
    rewrite Hmiss; simpl. rewrite Hlogs; simpl.
    destruct (accepts _ _ _) eqn:Hacc; close_sets_entry.
Qed.

(** On a miss with the store failing, [get] returns the store's error
    and writes nothing to the cache. *)
Lemma get_store_fails (opts : GetChunkOptions) (p : proxy D) err d :
  entries (cache p) !! cacheKey (get_RunID opts) (get_Phase opts) = None →
  getLogs (get_RunID opts) (get_Phase opts) (db p) = (Err err, d) →
  (get opts p).1 = Err err ∧ cache (get opts p).2 = cache p.
Proof.
  intros Hmiss Hlogs. run_proxy. rewrite Hmiss; simpl. by rewrite Hlogs.
Qed.

(** What [put] adds to the trace. *)
Lemma proxy_put_trace (opts : PutChunkOptions) (p : proxy D) :
  trace (proxy_put opts p).2 = trace p ++ [DbPut opts].
Proof.
  run_proxy. by destruct (put opts (db p)) as [[id|err] d].
Qed.

(** C9.  [put] has one effect, the write to the backing store: its
    trace grows by that call alone (no cache read, no cache write), its
    cache is the one it started with, and it returns what the store's
    [put] returned. *)
Theorem proxy_put_store_only (opts : PutChunkOptions) (p : proxy D) :
  let p' := (proxy_put opts p).2 in
  trace p' = trace p ++ [DbPut opts]
  ∧ cache p' = cache p
  ∧ db p' = (put opts (db p)).2
  ∧ (proxy_put opts p).1 =
    match (put opts (db p)).1 with
    | Ok _ => None
    | Err err => Some err
    end.
Proof.
  run_proxy. by destruct (put opts (db p)) as [[id|err] d].
Qed.

(** [put] adds neither reads nor writes of the cache to the trace. *)
Lemma proxy_put_no_cache_effect (opts : PutChunkOptions) (p : proxy D) :
  ∃ new, trace (proxy_put opts p).2 = trace p ++ new
         ∧ writes new = [] ∧ reads new = [].
Proof.
  exists [DbPut opts]. by rewrite proxy_put_trace.
Qed.

End Proxy.

(** Scenario "log fresh-start" of the spec: the cache holds "stale" for
    (R, plan); a chunk with offset 0 and data "new" makes it "new". *)
Example fresh_start_overwrites :
  let p := Samples.proxyOf [("R.plan.log", Samples.b "stale")] (λ _ _, true) in
  let c := {| RunID := "R"; Phase := "plan"; Data := Samples.b "new";
              Offset := 0 |} in
  entries (cache (Start_chunk (DB := Samples.fixedStore []) c p).2)
    !! "R.plan.log" = Some (Samples.b "new").
Proof. vm_compute. reflexivity. Qed.

Lemma Start_chunk_cache_witness :
  let db := Samples.fixedStore (Samples.b "initplan") in
  let p := Samples.proxyOf [("R.plan.log", Samples.b "init")] (λ _ _, true) in
  let first := {| RunID := "R"; Phase := "plan"; Data := Samples.b "new";
                  Offset := 0 |} in
  let next := {| RunID := "R"; Phase := "plan"; Data := Samples.b "plan";
                 Offset := 4 |} in
  let other := {| RunID := "S"; Phase := "plan"; Data := Samples.b "plan";
                  Offset := 4 |} in
  sets_entry "R.plan.log" (Samples.b "new") p
    (Start_chunk (DB := db) first p).2
  ∧ sets_entry "R.plan.log" (Samples.b "initplan") p
      (Start_chunk (DB := db) next p).2
  ∧ sets_entry "S.plan.log" (Samples.b "initplan") p
      (Start_chunk (DB := db) other p).2.
Proof.
  intros db p first next other. split; [|split].
  - apply (proj1 (Start_chunk_cache (DB := db) first p)). reflexivity.
  - apply (proj1 (proj2 (Start_chunk_cache (DB := db) next p))
             (Samples.b "init")).
    + vm_compute. discriminate.
    + vm_compute. reflexivity.
  - apply (proj2 (proj2 (Start_chunk_cache (DB := db) other p))
             (Samples.b "initplan") tt).
    + vm_compute. discriminate.
    + vm_compute. reflexivity.
    + reflexivity.
Defined.

Lemma get_chunk_witness :
  let db := Samples.fixedStore (Samples.b "initplan") in
  let refuse := Samples.proxyOf [] (λ _ _, false) in
  let opts := {| get_RunID := "R"; get_Phase := "plan"; Limit := 3;
                 get_Offset := 2 |} in
  (get (DB := db) opts refuse).1 =
  Ok {| RunID := "R"; Phase := "plan"; Data := Samples.b "itp";
        Offset := 0 |}
  ∧ cache (get (DB := db) opts refuse).2 = cache refuse.
Proof.
  intros db refuse opts.
  destruct (proj2 (get_chunk (DB := db) opts refuse) (Samples.b "initplan") tt)
    as (Hres & _ & _ & Hcache).
  - vm_compute. reflexivity.
  - reflexivity.
  - split; [exact Hres | apply Hcache; reflexivity].
Defined.

End LogsProps.


(** * Properties of the agent service *)

Module AgentProps.
Import Agent.

(** The agent a caller is registered as, if any. *)
Definition registered_agent (s : Subject) : option Agent :=
  match s with
  | serverAgent a | poolAgent a _ _ => Some a
  | _ => None
  end.

Definition caller_agent (ctx : context) : option Agent :=
  match ctx_subject ctx with
  | Some s => registered_agent s
  | None => None
  end.

Ltac run_service :=
  cbv beta iota zeta delta
    [startJob finishJob cancelJob getAgentJobs getAgentJobs_jobs
     updateAgentStatus updateAgentStatus_update checkWorkspacePoolAccess
     GetAgentPool deleteAgentPool deleteAgentPool_inner
     db_getPool db_deleteAgentPool db_updateJob db_updateAgent
     db_getAllocatedAndSignaledJobs
     phases_StartPhase phases_FinishPhase phases_Cancel
     tokenFactory_createJobToken logger emit bind ret
     registeredAgentFromContext SubjectFromContext caller_agent
     registered_agent];
  simpl.

(** Case analysis on every test the code under evaluation makes. *)
Ltac case_step :=
  match goal with
  | |- context [bool_decide (?a ≠ ?b)] =>
      destruct (decide (a = b));
      [rewrite (bool_decide_eq_false_2 (a ≠ b)) by auto
      |rewrite (bool_decide_eq_true_2 (a ≠ b)) by auto]
  | |- context [bool_decide ?P] => destruct (bool_decide_reflect P)
  | |- context [match ?x with _ => _ end] =>
      lazymatch x with
      | context [match _ with _ => _ end] => fail
      | _ => destruct x eqn:?
      end
  end.




Section Service.
Context {R T : Type} {PC : phaseClient R} {TF : tokenFactory T}
  {AZ : Authorizer}.

Implicit Types (w : world R T) (ctx : context) (spec : JobSpec).

(** From [w] to [w'] the trace grew by [new]. *)
Definition grew_by w w' (new : list Effect) : Prop :=
  trace w' = trace w ++ new.


(** The caller is the registered agent with the given ID. *)
Definition is_agent (s : Subject) (agentID : string) : Prop :=
  ∃ a, registered_agent s = Some a ∧ agent_ID a = agentID.

(** A job an agent is to pick up: assigned to it, and either allocated
    or running with a signal. *)
Definition for_agent (agentID : string) (j : Job) : Prop :=
  AgentID j = Some agentID
  ∧ (Status j = JobAllocated
     ∨ (Status j = JobRunning ∧ Signaled j ≠ None)).

Lemma allocatedOrSignaled_for_agent agentID j :
  allocatedOrSignaled agentID j = true ↔ for_agent agentID j.
Proof using Type.
  unfold allocatedOrSignaled, for_agent.
  rewrite andb_true_iff, bool_decide_eq_true.
  destruct (Status j); rewrite ?bool_decide_eq_true;
    intuition congruence.
Qed.

(** The store query returns stored jobs that are for the agent. *)
Lemma db_getAllocatedAndSignaledJobs_for_agent agentID w js j :
  (db_getAllocatedAndSignaledJobs agentID w).1 = Ok js →
  j ∈ js →
  for_agent agentID j ∧ ∃ spec, jobs w !! spec = Some j.
Proof using Type.
  unfold db_getAllocatedAndSignaledJobs; simpl. intros [= <-] Hin.
  apply list_elem_of_In, filter_In in Hin as [Hin Hok].
  split; [by apply allocatedOrSignaled_for_agent|].
  apply in_map_iff in Hin as [[spec j'] [<- Hin]].
  exists spec. by apply elem_of_map_to_list, list_elem_of_In.
Qed.

(** The wait on the event stream returns at most one job, the payload
    of an event, and it is for the agent. *)
Lemma getAgentJobs_wait_for_agent agentID (sub : list (Event Job)) j :
  j ∈ getAgentJobs_wait agentID sub →
  for_agent agentID j ∧ j ∈ map Payload sub.
Proof using Type.
  induction sub as [|event sub IH]; simpl; [by intros ?%elem_of_nil|].
  assert (Hrest : j ∈ getAgentJobs_wait agentID sub →
                  for_agent agentID j ∧ j ∈ Payload event :: map Payload sub).
  { intros [? ?]%IH. split; [done|by right]. }
  destruct (decide (AgentID (Payload event) = None)) as [Hnil|Hnil].
  { rewrite (bool_decide_eq_true_2 _ Hnil). done. }
  rewrite (bool_decide_eq_false_2 _ Hnil); simpl.
  destruct (decide (AgentID (Payload event) = Some agentID)) as [Hid|Hid].
  - rewrite (bool_decide_eq_false_2 (_ ≠ _)) by auto.
    destruct (Status (Payload event)) eqn:Hst; try done.
    + intros ->%list_elem_of_singleton.
      split; [split; auto | by left].
    + destruct (decide (Signaled (Payload event) = None)) as [Hs|Hs].
      * rewrite (bool_decide_eq_false_2 (_ ≠ _)) by auto. done.
      * rewrite (bool_decide_eq_true_2 _ Hs).
        intros ->%list_elem_of_singleton.
        split; [split; auto | by left].
  - rewrite (bool_decide_eq_true_2 _ Hid). done.
Qed.

(** C4.  [getAgentJobs]: a caller that is not the registered agent with
    ID [agentID] gets [ErrAccessNotPermitted]; a successful call was made
    by that agent, and every job it returns, from the store query or from
    the wait on the jobs stream, is assigned to [agentID] and is
    allocated, or running with a non-nil [Signaled].  The call changes
    nothing. *)
Theorem getAgentJobs_spec ctx agentID (sub : list (Event Job)) w :
  let res := (getAgentJobs ctx agentID sub w).1 in
  (∀ s, ctx_subject ctx = Some s → ¬ is_agent s agentID →
        res = Err ErrAccessNotPermitted)
  ∧ (ctx_subject ctx = None → is_Err res)
  ∧ (∀ js, res = Ok js →
       (∃ s, ctx_subject ctx = Some s ∧ is_agent s agentID)
       ∧ (∀ j, j ∈ js →
            AgentID j = Some agentID
            ∧ (Status j = JobAllocated
               ∨ (Status j = JobRunning ∧ Signaled j ≠ None)))
       ∧ (js = getAgentJobs_wait agentID sub
          ∨ (js ≠ [] ∧ (db_getAllocatedAndSignaledJobs agentID w).1 = Ok js)))
  ∧ (getAgentJobs ctx agentID sub w).2 = w.
Proof using Type.
  intros res. subst res.
  assert (Hjobs : ∀ js,
    (getAgentJobs_jobs agentID sub w).1 = Ok js →
    (∀ j, j ∈ js → for_agent agentID j)
    ∧ (js = getAgentJobs_wait agentID sub
       ∨ (js ≠ [] ∧ (db_getAllocatedAndSignaledJobs agentID w).1 = Ok js))).
  { intros js. unfold getAgentJobs_jobs, bind, ret.
    destruct (db_getAllocatedAndSignaledJobs agentID w) as [[found|e] w1]
      eqn:Hdb; simpl; [|done].
    destruct (bool_decide_reflect (0 < length found)); simpl.
    - intros [= <-]. split.
      + intros j Hj.
        eapply db_getAllocatedAndSignaledJobs_for_agent; [|done].
        by rewrite Hdb.
      + right. split; [by destruct found; simpl in *; [lia|]|done].
    - intros [= <-]. split; [|by left].
      intros j Hj. by apply getAgentJobs_wait_for_agent in Hj as [? _]. }
  assert (Hframe : (getAgentJobs_jobs agentID sub w).2 = w).
  { unfold getAgentJobs_jobs, db_getAllocatedAndSignaledJobs, bind, ret.
    simpl. by destruct (bool_decide _). }
  unfold getAgentJobs, SubjectFromContext, is_agent in *.
  destruct ctx as [[s|]]; simpl; [|by repeat split].
  destruct s; simpl in *.
  all: try (repeat split; try done; intros; simplify_eq; fail).
  all: destruct (decide (agent_ID agent = agentID)) as [Hid|Hid].
  all: rewrite ?(bool_decide_eq_false_2 (_ ≠ _)) by auto.
  all: rewrite ?(bool_decide_eq_true_2 (_ ≠ _)) by auto.
  all: simpl; repeat split; try done.
  all: try (intros s Hs Hno; simplify_eq; destruct Hno; eauto; fail).
  all: try (by apply Hjobs).
  all: try match goal with
           | Hr : _ = Ok ?js, Hj : ?j ∈ ?js |- _ =>
               by destruct (proj1 (Hjobs js Hr) j Hj)
           end.
  all: eauto 6.
Qed.

(** C5, as the code has it.  [checkWorkspacePoolAccess] returns nil for
    a workspace without [AgentPoolID].  With one, it first retrieves the
    pool through [GetAgentPool]; if that fails (no such pool, or the
    caller may not read pools of the organization) the error is returned
    as it is.  If the pool is retrieved, the check returns nil when the
    pool is [OrganizationScoped] or lists the workspace's ID in
    [AllowedWorkspaces], and [ErrWorkspaceNotAllowedToUsePool]
    otherwise. *)
Theorem checkWorkspacePoolAccess_spec ctx (ws : Workspace) w :
  let res := (checkWorkspacePoolAccess ctx ws w).1 in
  (ws_AgentPoolID ws = None → res = None)
  ∧ (∀ poolID pool subject,
       ws_AgentPoolID ws = Some poolID →
       pools w !! poolID = Some pool →
       CanAccess ctx GetAgentPoolAction (pool_Organization pool)
         = Ok subject →
       (OrganizationScoped pool = true
        ∨ ws_ID ws ∈ AllowedWorkspaces pool → res = None)
       ∧ (OrganizationScoped pool = false →
          ws_ID ws ∉ AllowedWorkspaces pool →
          res = Some ErrWorkspaceNotAllowedToUsePool))
  ∧ (∀ poolID err,
       ws_AgentPoolID ws = Some poolID →
       (GetAgentPool ctx poolID w).1 = Err err →
       res = Some err)
  ∧ pools (checkWorkspacePoolAccess ctx ws w).2 = pools w.
Proof using Type.
  intros res. subst res. run_service.
  destruct (ws_AgentPoolID ws) as [poolID|]; simpl; [|by repeat split].
  split; [done|]. split; [|split].
  - intros ? pool subject [= <-] Hpool Hcan. rewrite Hpool, Hcan; simpl.
    destruct (OrganizationScoped pool); simpl.
    + split; [done|]. done.
    + split.
      * intros [?|Hin]; [done|]. by rewrite (bool_decide_eq_true_2 _ Hin).
      * intros _ Hout. by rewrite (bool_decide_eq_false_2 _ Hout).
  - intros ? err [= <-]. repeat case_step; simpl; congruence.
  - repeat case_step; done.
Qed.

(** C6, as the code has it.  [deleteAgentPool] on a pool with a
    non-empty [AssignedWorkspaces] returns an error, deletes nothing and
    does not call the store's delete, whoever calls; the error is
    [ErrCannotDeletePoolReferencedByWorkspaces] for a caller who passes
    the authorization for [DeleteAgentPoolAction], and the authorizer's
    own error for one who does not.  The store's delete is called only
    for a pool whose [AssignedWorkspaces] is empty. *)
Theorem deleteAgentPool_spec ctx poolID w pool :
  pools w !! poolID = Some pool →
  let res := (deleteAgentPool ctx poolID w).1 in
  let w' := (deleteAgentPool ctx poolID w).2 in
  (AssignedWorkspaces pool ≠ [] →
     is_Err res ∧ pools w' = pools w
     ∧ (∃ new, grew_by w w' new ∧ filter is_write new = [])
     ∧ (∀ subject,
          CanAccess ctx DeleteAgentPoolAction (pool_Organization pool)
            = Ok subject →
          res = Err ErrCannotDeletePoolReferencedByWorkspaces)
     ∧ (∀ err,
          CanAccess ctx DeleteAgentPoolAction (pool_Organization pool)
            = Err err →
          res = Err err))
  ∧ (∀ new id,
       grew_by w w' new → DbDeleteAgentPool id ∈ new →
       AssignedWorkspaces pool = [] ∧ id = pool_ID pool).
Proof using Type.
  intros Hpool res w'. subst res w'. unfold grew_by.
  run_service. rewrite Hpool.
  destruct (CanAccess ctx DeleteAgentPoolAction (pool_Organization pool))
    as [subject|err]; simpl.
  - destruct (AssignedWorkspaces pool) as [|ws0 wss] eqn:Has; simpl.
    + split; [done|]. intros new id Hnew Hin.
      rewrite <- app_assoc in Hnew. apply app_inv_head in Hnew as <-.
      apply elem_of_cons in Hin as [[= ->]|Hin]; [done|].
      apply list_elem_of_singleton in Hin. done.
    + split.
      * intros _. repeat split; try done. by eexists.
      * intros new id Hnew Hin. apply app_inv_head in Hnew as <-.
        apply list_elem_of_singleton in Hin. done.
  - split.
    + intros _. repeat split; try done; [by eexists|congruence].
    + intros new id Hnew Hin. apply app_inv_head in Hnew as <-.
      apply list_elem_of_singleton in Hin. done.
Qed.

End Service.

Section Finishing.
Context {R T : Type} {PC : phaseClient R} {TF : tokenFactory T}
  {AZ : Authorizer}.
Variable Job_finishJob : Job → JobStatus → result Job.

Implicit Types (w : world R T) (ctx : context) (spec : JobSpec).

(** The phase call [finishJob] owes the run service for a final
    status, in the claim's words: [FinishPhase] with [Errored] true iff
    the status is [JobErrored], [Cancel] for [JobCanceled]. *)
Definition finish_call spec (st : JobStatus) : option Effect :=
  match st with
  | JobFinished =>
      Some (CallFinishPhase (RunID spec) (Phase spec) {| Errored := false |})
  | JobErrored =>
      Some (CallFinishPhase (RunID spec) (Phase spec) {| Errored := true |})
  | JobCanceled => Some (CallCancel (RunID spec))
  | _ => None
  end.

(** What the run service answers to that call. *)
Definition finish_call_result spec (st : JobStatus) (r : R)
  : option error :=
  match st with
  | JobFinished =>
      (FinishPhase (RunID spec) (Phase spec) {| Errored := false |} r).1
  | JobErrored =>
      (FinishPhase (RunID spec) (Phase spec) {| Errored := true |} r).1
  | JobCanceled => (Cancel (RunID spec) r).1
  | _ => None
  end.

(** C2.  [finishJob] on an existing job: unless the caller's subject is
    a [Job] the call returns [ErrAccessNotPermitted] and does nothing.
    For a [Job] caller and a status among finished, errored and canceled,
    the first thing the call does is the one phase call that status asks
    for ([FinishPhase] with [Errored] true iff the status is errored,
    [Cancel] for canceled); no other phase call follows; and only after
    it, and only if it succeeded, is the job finalized and written
    back. *)
Theorem finishJob_spec ctx spec opts w job :
  jobs w !! spec = Some job →
  let res := (finishJob Job_finishJob ctx spec opts w).1 in
  let w' := (finishJob Job_finishJob ctx spec opts w).2 in
  ((∀ j, ctx_subject ctx ≠ Some (JobSubject j)) →
     res = Some ErrAccessNotPermitted ∧ w' = w)
  ∧ (∀ j call,
       ctx_subject ctx = Some (JobSubject j) →
       finish_call spec (opts_Status opts) = Some call →
       ∃ rest,
         grew_by w w' (call :: rest)
         ∧ filter is_phase_call rest = []
         ∧ match finish_call_result spec (opts_Status opts) (runs w) with
           | Some err =>
               res = Some err ∧ jobs w' = jobs w
               ∧ filter is_write rest = []
           | None =>
               match Job_finishJob job (opts_Status opts) with
               | Err err =>
                   res = Some err ∧ jobs w' = jobs w
                   ∧ filter is_write rest = []
               | Ok job' =>
                   res = None ∧ jobs w' = <[spec := job']> (jobs w)
                   ∧ filter is_write rest = [DbUpdateJob spec job']
               end
           end).
Proof using Type.
  intros Hjob res w'. subst res w'. unfold grew_by.
  run_service. unfold finish_call, finish_call_result.
  destruct ctx as [[s|]]; simpl.
  - destruct s; simpl; rewrite ?Hjob.
    all: split; [intros Hno; try done; by destruct (Hno job0)|].
    all: intros j call Hs Hcall; simplify_eq.
    destruct (opts_Status opts); simplify_eq; simpl.
    all: repeat case_step; simpl.
    all: eexists; (split; [by rewrite <- ?app_assoc|]); done.
  - split; [done|]. intros; simplify_eq.
Qed.

End Finishing.

Section Status.
Context {R T : Type} {PC : phaseClient R} {TF : tokenFactory T}
  {AZ : Authorizer}.
Variable Agent_setStatus : Agent → AgentStatus → bool → result Agent.

Implicit Types (w : world R T) (ctx : context).

(** The outcome of the store update behind [updateAgentStatus], once
    the caller is let through. *)
Definition status_updated (agentID : string) (to : AgentStatus)
    (isAgent : bool) (agent : Agent) w (res : option error) w' : Prop :=
  match Agent_setStatus agent to isAgent with
  | Ok agent' =>
      res = None ∧ agents w' = <[agentID := agent']> (agents w)
  | Err err => res = Some err ∧ agents w' = agents w
  end.

(** C7.  [updateAgentStatus]: unless the caller's subject is the
    manager, or a registered server or pool agent whose ID is [agentID],
    the call returns [ErrAccessNotPermitted] and changes nothing,
    whatever the requested status ([unknown] and [errored] included); a
    context without any subject is turned away as well, with the error
    of [SubjectFromContext].  The manager and the agent itself are let
    through to the agent's own transition check, with [isAgent] false
    and true. *)
Theorem updateAgentStatus_spec ctx agentID (to : AgentStatus) w :
  let res := (updateAgentStatus Agent_setStatus ctx agentID to w).1 in
  let w' := (updateAgentStatus Agent_setStatus ctx agentID to w).2 in
  (∀ s, ctx_subject ctx = Some s →
        s ≠ manager → ¬ is_agent s agentID →
        res = Some ErrAccessNotPermitted ∧ w' = w)
  ∧ (ctx_subject ctx = None → res ≠ None ∧ w' = w)
  ∧ (∀ s agent,
       ctx_subject ctx = Some s →
       agents w !! agentID = Some agent →
       (s = manager → status_updated agentID to false agent w res w')
       ∧ (is_agent s agentID →
          status_updated agentID to true agent w res w')).
Proof using Type.
  intros res w'. subst res w'. unfold status_updated, is_agent.
  run_service.
  destruct ctx as [[s|]]; simpl; [|by repeat split].
  split; [|split; [done|]].
  - intros ? [= <-] Hman Hno.
    destruct s; simpl; try done.
    all: destruct (decide (agent_ID agent = agentID)) as [Hid|Hid].
    all: rewrite ?(bool_decide_eq_false_2 (_ ≠ _)) by auto.
    all: rewrite ?(bool_decide_eq_true_2 (_ ≠ _)) by auto.
    all: try done.
    all: destruct Hno; eauto.
  - intros ? agent0 [= <-] Hagent.
    destruct s; simpl.
    all: split; [try done|try (by intros (a & [=] & _))].
    + intros _. rewrite Hagent. repeat case_step; simplify_eq; done.
    + intros (a & [= <-] & Hid).
      rewrite (bool_decide_eq_false_2 (_ ≠ _)) by auto.
      rewrite Hagent. repeat case_step; simplify_eq; done.
    + intros (a & [= <-] & Hid).
      rewrite (bool_decide_eq_false_2 (_ ≠ _)) by auto.
      rewrite Hagent. repeat case_step; simplify_eq; done.
Qed.

End Status.

Section Canceling.
Context {R T : Type} {PC : phaseClient R} {TF : tokenFactory T}
  {AZ : Authorizer}.
Variable Job_cancel : Job → Run → result (Job * option bool).

Implicit Types (w : world R T) (ctx : context).

(** C10.  [cancelJob] for a run without a job row returns nil and
    leaves the world as it was, trace included.  An error of the store
    update that is not [ErrResourceNotFound], the state machine's among
    them, is returned to the caller, and nothing is written. *)
Theorem cancelJob_spec ctx (run : Run) w :
  let spec := {| RunID := run_ID run; Phase := run_Phase run |} in
  (jobs w !! spec = None → cancelJob Job_cancel ctx run w = (None, w))
  ∧ (∀ err,
       (db_updateJob spec (λ job, ret (Job_cancel job run)) w).1
         = Err err →
       errors_Is err ErrResourceNotFound = false →
       (cancelJob Job_cancel ctx run w).1 = Some err
       ∧ jobs (cancelJob Job_cancel ctx run w).2 = jobs w)
  ∧ (∀ job err,
       jobs w !! spec = Some job →
       Job_cancel job run = Err err →
       errors_Is err ErrResourceNotFound = false →
       (cancelJob Job_cancel ctx run w).1 = Some err
       ∧ jobs (cancelJob Job_cancel ctx run w).2 = jobs w).
Proof using Type.
  intros spec. subst spec. run_service. split; [|split].
  - by intros ->.
  - intros err. repeat case_step; simpl; intros; simplify_eq;
      (done || congruence).
  - intros job err -> -> ->. done.
Qed.

End Canceling.
(** ** The theorems at sample worlds *)

Import Samples.


(** While the run service is down the job stays allocated. *)
Example startJob_phase_down :
  let job := jobAt JobAllocated (Some "agent-A") None in
  let w := worldOf [] [("agent-A", agentA)] [(specJ1, job)] in
  let out := startJob (PC := downPhases) (TF := countingTokens)
               (asSubject (serverAgent agentA)) specJ1 w in
  out.1 = Err (ErrorString "run service down")
  ∧ jobs out.2 !! specJ1 = Some job
  ∧ trace out.2 = [CallStartPhase "run-1" "plan";
                   Log LevelError "starting job"].
Proof. vm_compute. done. Qed.

(** Agent B may not start the job allocated to agent A. *)
Example startJob_other_agent :
  let job := jobAt JobAllocated (Some "agent-A") None in
  let w := worldOf [] [("agent-A", agentA)] [(specJ1, job)] in
  (startJob (PC := okPhases) (TF := countingTokens)
     (asSubject (serverAgent agentB)) specJ1 w).1
  = Err ErrAccessNotPermitted.
Proof. vm_compute. done. Qed.

(** Scenario "force cancel": the job reports [Canceled]; [Cancel] is
    called once, before the job is written back. *)
Lemma finishJob_spec_witness :
  let job := jobAt JobRunning (Some "agent-A") (Some true) in
  let w := worldOf [] [("agent-A", agentA)] [(specJ1, job)] in
  let ctx := asSubject (JobSubject job) in
  let opts := {| opts_Status := JobCanceled; opts_Error := "" |} in
  let w' := (finishJob (PC := okPhases) sample_finishJob
               ctx specJ1 opts w).2 in
  jobs w !! specJ1 = Some job
  ∧ ∃ rest, trace w' = trace w ++ CallCancel "run-1" :: rest
            ∧ filter is_phase_call rest = []
            ∧ filter is_write rest
              = [DbUpdateJob specJ1 (set_Status JobCanceled job)].
Proof.
  intros job w ctx opts w'.
  assert (Hjob : jobs w !! specJ1 = Some job) by (vm_compute; reflexivity).
  split; [exact Hjob|].
  destruct (proj2 (finishJob_spec (PC := okPhases)
                     sample_finishJob ctx specJ1 opts w job Hjob)
              job (CallCancel "run-1") eq_refl eq_refl)
    as (rest & Hgrew & Hcalls & _ & _ & Hwrites).
  exists rest. split; [exact Hgrew|]. split; [exact Hcalls|exact Hwrites].
Defined.

Example finishJob_errored :
  let job := jobAt JobRunning (Some "agent-A") None in
  let w := worldOf [] [("agent-A", agentA)] [(specJ1, job)] in
  let out := finishJob (PC := okPhases)
               sample_finishJob (asSubject (JobSubject job)) specJ1
               {| opts_Status := JobErrored; opts_Error := "exit 1" |} w in
  out.1 = None
  ∧ trace out.2 = [CallFinishPhase "run-1" "plan" {| Errored := true |};
                   DbUpdateJob specJ1 (set_Status JobErrored job);
                   Log LevelDebug "finished job with error"].
Proof. vm_compute. done. Qed.

Lemma getAgentJobs_spec_witness :
  let job := jobAt JobAllocated (Some "agent-A") None in
  let other := jobAt JobRunning (Some "agent-B") (Some false) in
  let w := worldOf [] []
             [(specJ1, job);
              ({| RunID := "run-2"; Phase := "apply" |}, other)] in
  let ctx := asSubject (serverAgent agentA) in
  (getAgentJobs ctx "agent-A" [] w).1 = Ok [job]
  ∧ ∀ j, j ∈ [job] →
         AgentID j = Some "agent-A"
         ∧ (Status j = JobAllocated
            ∨ (Status j = JobRunning ∧ Signaled j ≠ None)).
Proof.
  intros job other w ctx.
  assert (Hres : (getAgentJobs ctx "agent-A" [] w).1 = Ok [job])
    by (vm_compute; reflexivity).
  split; [exact Hres|].
  exact (proj1 (proj2 (proj1 (proj2 (proj2
           (getAgentJobs_spec ctx "agent-A" [] w))) [job] Hres))).
Defined.

(** A signalled job arriving on the stream is handed to its agent;
    events for other agents and skeleton payloads of deletions are
    skipped. *)
Example getAgentJobs_from_stream :
  let signalled := jobAt JobRunning (Some "agent-A") (Some true) in
  let sub := [mkEvent DeletedEvent (jobAt JobUnallocated None None);
              mkEvent UpdatedEvent (jobAt JobAllocated (Some "agent-B") None);
              mkEvent UpdatedEvent (jobAt JobRunning (Some "agent-A") None);
              mkEvent UpdatedEvent signalled] in
  (getAgentJobs (R := unit) (T := nat)
     (asSubject (serverAgent agentA)) "agent-A" sub (worldOf [] [] [])).1
  = Ok [signalled].
Proof. vm_compute. done. Qed.

(** Scenario "pool scoping", for a caller who may read the pool. *)
Lemma checkWorkspacePoolAccess_spec_witness :
  let ws := {| ws_ID := "ws-1"; ws_AgentPoolID := Some "pool-1" |} in
  let ctx := asSubject (otherSubject "user-1") in
  let closed := worldOf [("pool-1", poolP false [] [])] [] [] in
  let opened := worldOf [("pool-1", poolP false ["ws-1"] [])] [] [] in
  (checkWorkspacePoolAccess (AZ := allowAll) ctx ws closed).1
  = Some ErrWorkspaceNotAllowedToUsePool
  ∧ (checkWorkspacePoolAccess (AZ := allowAll) ctx ws opened).1 = None.
Proof.
  intros ws ctx closed opened. split.
  - apply (proj2 (proj1 (proj2
             (checkWorkspacePoolAccess_spec (AZ := allowAll) ctx ws closed))
             "pool-1" (poolP false [] []) (otherSubject "user-1")
             eq_refl eq_refl eq_refl)).
    + reflexivity.
    + apply not_elem_of_nil.
  - apply (proj1 (proj1 (proj2
             (checkWorkspacePoolAccess_spec (AZ := allowAll) ctx ws opened))
             "pool-1" (poolP false ["ws-1"] []) (otherSubject "user-1")
             eq_refl eq_refl eq_refl)).
    right. apply list_elem_of_here.
Defined.

(** Counterexample to C5: the pool is organization-scoped, yet the check
    does not return nil for a caller whom the authorizer does not let read
    the pool; it returns the authorizer's error. *)
Lemma checkWorkspacePoolAccess_scoped_pool_unreadable :
  let pool := poolP true [] [] in
  let w := worldOf [("pool-1", pool)] [] [] in
  let ws := {| ws_ID := "ws-1"; ws_AgentPoolID := Some "pool-1" |} in
  let res := (checkWorkspacePoolAccess (AZ := denyAll)
                (asSubject (otherSubject "user-1")) ws w).1 in
  pools w !! "pool-1" = Some pool
  ∧ OrganizationScoped pool = true
  ∧ res = Some ErrAccessNotPermitted
  ∧ res ≠ None.
Proof. vm_compute. repeat split; discriminate. Qed.

Lemma deleteAgentPool_spec_witness :
  let pool := poolP false [] ["ws-1"] in
  let w := worldOf [("pool-1", pool)] [] [] in
  let ctx := asSubject (otherSubject "owner") in
  let out := deleteAgentPool (AZ := allowAll) ctx "pool-1" w in
  pools w !! "pool-1" = Some pool
  ∧ AssignedWorkspaces pool ≠ []
  ∧ out.1 = Err ErrCannotDeletePoolReferencedByWorkspaces
  ∧ pools out.2 = pools w.
Proof.
  intros pool w ctx out.
  assert (Hpool : pools w !! "pool-1" = Some pool)
    by (vm_compute; reflexivity).
  assert (Hassigned : AssignedWorkspaces pool ≠ []) by discriminate.
  destruct (proj1 (deleteAgentPool_spec (AZ := allowAll)
                     ctx "pool-1" w pool Hpool) Hassigned)
    as (_ & Hkept & _ & Herr & _).
  split; [exact Hpool|]. split; [exact Hassigned|].
  split; [exact (Herr (otherSubject "owner") eq_refl)|exact Hkept].
Defined.

(** An unreferenced pool is deleted, through the store's delete. *)
Example deleteAgentPool_unreferenced :
  let pool := poolP false [] [] in
  let w := worldOf [("pool-1", pool)] [] [] in
  let out := deleteAgentPool (AZ := allowAll)
               (asSubject (otherSubject "owner")) "pool-1" w in
  out.1 = Ok pool
  ∧ pools out.2 !! "pool-1" = None
  ∧ trace out.2 = [DbDeleteAgentPool "pool-1";
                   Log LevelDebug "deleted agent pool"].
Proof. vm_compute. done. Qed.

(** Counterexample to C6: the pool is referenced by a workspace, yet a
    caller who does not pass the authorization gets the authorizer's
    error, not [ErrCannotDeletePoolReferencedByWorkspaces]. *)
Lemma deleteAgentPool_referenced_pool_unauthorized :
  let pool := poolP false [] ["ws-1"] in
  let w := worldOf [("pool-1", pool)] [] [] in
  let res := (deleteAgentPool (AZ := denyAll)
                (asSubject (otherSubject "user-1")) "pool-1" w).1 in
  pools w !! "pool-1" = Some pool
  ∧ AssignedWorkspaces pool ≠ []
  ∧ res = Err ErrAccessNotPermitted
  ∧ res ≠ Err ErrCannotDeletePoolReferencedByWorkspaces.
Proof. vm_compute. repeat split; discriminate. Qed.

(** A user cannot drive an agent into [errored]. *)
Lemma updateAgentStatus_spec_witness :
  let w := worldOf [] [("agent-A", agentA)] [] in
  let ctx := asSubject (otherSubject "user-1") in
  let out := updateAgentStatus sample_setStatus ctx "agent-A"
               AgentErrored w in
  ctx_subject ctx = Some (otherSubject "user-1")
  ∧ out.1 = Some ErrAccessNotPermitted ∧ out.2 = w.
Proof.
  intros w ctx out. split; [reflexivity|].
  apply (proj1 (updateAgentStatus_spec sample_setStatus
                  ctx "agent-A" AgentErrored w)
           (otherSubject "user-1") eq_refl).
  - discriminate.
  - intros (a & Ha & _). discriminate Ha.
Defined.

(** Nor can another agent; the manager can. *)
Example updateAgentStatus_other_agent :
  let w := worldOf [] [("agent-A", agentA); ("agent-B", agentB)] [] in
  (updateAgentStatus sample_setStatus (asSubject (serverAgent agentB))
     "agent-A" AgentUnknown w).1 = Some ErrAccessNotPermitted
  ∧ (updateAgentStatus sample_setStatus (asSubject manager)
       "agent-A" AgentUnknown w).1 = None.
Proof. vm_compute. done. Qed.

Lemma cancelJob_spec_witness :
  let w := worldOf [] [("agent-A", agentA)] [] in
  let run := {| run_ID := "run-1"; run_Phase := "plan";
                run_ForceCanceled := false |} in
  let done := jobAt JobFinished (Some "agent-A") None in
  let w1 := worldOf [] [("agent-A", agentA)] [(specJ1, done)] in
  cancelJob sample_cancel (asSubject (otherSubject "user-1")) run w
  = (None, w)
  ∧ (cancelJob sample_cancel (asSubject (otherSubject "user-1")) run w1).1
    = Some ErrInvalidStateTransition.
Proof.
  intros w run done w1. split.
  - apply (proj1 (cancelJob_spec sample_cancel
                    (asSubject (otherSubject "user-1")) run w)).
    vm_compute. reflexivity.
  - apply (proj2 (proj2 (cancelJob_spec sample_cancel
                    (asSubject (otherSubject "user-1")) run w1))
             done ErrInvalidStateTransition);
      vm_compute; reflexivity.
Defined.

End AgentProps.

(** * Facts about Go strings used below *)

Module GoStrings.

Lemma to_list_app (a b : string) :
  String.list_ascii_of_string (a +:+ b)
  = String.list_ascii_of_string a ++ String.list_ascii_of_string b.
Proof. induction a as [|c a IH]; simpl; [done|by rewrite IH]. Qed.

Lemma to_list_inj (a b : string) :
  String.list_ascii_of_string a = String.list_ascii_of_string b → a = b.
Proof.
  intros H. rewrite <- (String.string_of_list_ascii_of_string a),
    <- (String.string_of_list_ascii_of_string b). by rewrite H.
Qed.

Lemma app_inv_tail (a b t : string) : a +:+ t = b +:+ t → a = b.
Proof.
  intros H. apply to_list_inj.
  apply (f_equal String.list_ascii_of_string) in H. rewrite !to_list_app in H.
  by apply app_inv_tail in H.
Qed.

Lemma app_inv_head (h a b : string) : h +:+ a = h +:+ b → a = b.
Proof. apply String.app_inj. Qed.


End GoStrings.

(** * More on the log proxy: whole runs of [Start], and [get] after [get] *)

Module LogsExtra.
Import Logs LogsProps.

(** The store writes among a run of effects. *)
Definition puts (tr : list Effect) : list PutChunkOptions :=
  omap (λ e, match e with DbPut o => Some o | _ => None end) tr.

(** The store reads among a run of effects. *)
Definition fetches (tr : list Effect) : list (string * PhaseType) :=
  omap (λ e, match e with DbGetLogs r ph => Some (r, ph) | _ => None end) tr.

(** A cache that takes every write. *)
Definition accepting (c : Cache) : Prop := ∀ k v, accepts c k v = true.

Section Proxy.
Context {D : Type} {DB : proxydb D}.

Definition key_of (c : Chunk) : string := cacheKey (RunID c) (Phase c).

Lemma Start_chunk_accepts (c : Chunk) (p : proxy D) :
  accepts (cache (Start_chunk c p).2) = accepts (cache p).
Proof.
  run_proxy.
  destruct (bool_decide _); simpl.
  - by destruct (accepts _ _ _).
  - destruct (entries (cache p) !! _); simpl.
    + by destruct (accepts _ _ _).
    + destruct (getLogs _ _ _) as [[logs|err] d]; simpl; [|done].
      by destruct (accepts _ _ _).
Qed.

Lemma Start_chunk_other_keys (c : Chunk) (p : proxy D) (key : string) :
  key_of c ≠ key →
  entries (cache (Start_chunk c p).2) !! key = entries (cache p) !! key.
Proof.
  intros Hne. unfold key_of in Hne. run_proxy.
  destruct (bool_decide _); simpl.
  - destruct (accepts _ _ _); simpl; [by rewrite lookup_insert_ne|done].
  - destruct (entries (cache p) !! cacheKey _ _); simpl.
    + destruct (accepts _ _ _); simpl; [by rewrite lookup_insert_ne|done].
    + destruct (getLogs _ _ _) as [[logs|err] d]; simpl; [|done].
      destruct (accepts _ _ _); simpl; [by rewrite lookup_insert_ne|done].
Qed.

(** [Start] touches the cache only under the keys of the chunks it is
    sent: every other entry is after the run what it was before. *)
Theorem Start_other_keys (sub : list (Event Chunk)) (p : proxy D)
    (key : string) :
  Forall (λ ev, key_of (Payload ev) ≠ key) sub →
  entries (cache (Start sub p).2) !! key = entries (cache p) !! key.
Proof.
  revert p. induction sub as [|ev sub IH]; intros p Hsub; [done|].
  apply Forall_cons in Hsub as [Hev Hsub].
  rewrite Start_cons.
  pose proof (Start_chunk_other_keys (Payload ev) p key Hev) as Hstep.
  destruct (Start_chunk (Payload ev) p) as [[err|] p1]; simpl in *; [done|].
  by rewrite IH.
Qed.

(** A chunk that continues the stream of [first]: same run and phase,
    and not a start chunk. *)
Definition continues (first c : Chunk) : Prop :=
  Offset c ≠ 0%Z ∧ RunID c = RunID first ∧ Phase c = Phase first.

Lemma Start_continuation (first : Chunk) (sub : list (Event Chunk))
    (p : proxy D) (held : bytes) :
  Forall (λ ev, continues first (Payload ev)) sub →
  accepting (cache p) →
  entries (cache p) !! key_of first = Some held →
  (Start sub p).1 = ErrSubscriptionTerminated
  ∧ entries (cache (Start sub p).2) !! key_of first
    = Some (held ++ concat (map (λ ev, Data (Payload ev)) sub))
  ∧ db (Start sub p).2 = db p.
Proof.
  revert p held. induction sub as [|ev sub IH]; intros p held Hsub Hacc Hheld.
  { simpl. by rewrite app_nil_r. }
  apply Forall_cons in Hsub as [(Hoff & Hrun & Hphase) Hsub].
  rewrite Start_cons.
  assert (Hkey : cacheKey (RunID (Payload ev)) (Phase (Payload ev))
                 = key_of first) by (unfold key_of; by rewrite Hrun, Hphase).
  assert (Hstep : Start_chunk (Payload ev) p =
    (None, {| cache := {| entries := <[key_of first := held ++ Data (Payload ev)]>
                                       (entries (cache p));
                          accepts := accepts (cache p) |};
              db := db p;
              trace := trace p ++ [CacheGet (key_of first);
                                   CacheSet (key_of first)
                                     (held ++ Data (Payload ev))] |})).
  { run_proxy. rewrite bool_decide_eq_false_2 by done.
    rewrite Hkey, Hheld; simpl. rewrite Hacc. by rewrite <- app_assoc. }
  rewrite Hstep.
  match goal with
  | |- context [Start sub ?q] =>
      destruct (IH q (held ++ Data (Payload ev)) Hsub)
        as (Hres & Hentry & Hdb)
  end.
  - done.
  - simpl. apply lookup_insert_eq.
  - rewrite Hres, Hentry, Hdb. simpl. by rewrite <- app_assoc.
Qed.

(** A stream for one run and phase, a start chunk followed by any number
    of continuation chunks, sent to a proxy whose cache takes every write:
    [Start] runs to the end of the subscription, never reads the store, and
    leaves under the stream's key the chunks' data in order, whatever was
    cached before. *)
Theorem Start_stream (first : Chunk) (sub : list (Event Chunk))
    (ev : Event Chunk) (p : proxy D) :
  Payload ev = first →
  Offset first = 0%Z →
  Forall (λ ev, continues first (Payload ev)) sub →
  accepting (cache p) →
  (Start (ev :: sub) p).1 = ErrSubscriptionTerminated
  ∧ entries (cache (Start (ev :: sub) p).2) !! key_of first
    = Some (concat (map (λ ev, Data (Payload ev)) (ev :: sub)))
  ∧ db (Start (ev :: sub) p).2 = db p.
Proof.
  intros Hev Hoff Hsub Hacc. rewrite Start_cons, Hev.
  assert (Hstep : Start_chunk first p =
    (None, {| cache := {| entries := <[key_of first := Data first]>
                                       (entries (cache p));
                          accepts := accepts (cache p) |};
              db := db p;
              trace := trace p ++ [CacheSet (key_of first) (Data first)] |})).
  { run_proxy. rewrite bool_decide_eq_true_2 by done. simpl.
    by rewrite Hacc. }
  rewrite Hstep.
  destruct (Start_continuation first sub
              {| cache := {| entries := <[key_of first := Data first]>
                                          (entries (cache p));
                             accepts := accepts (cache p) |};
                 db := db p;
                 trace := trace p ++ [CacheSet (key_of first) (Data first)] |}
              (Data first) Hsub) as (Hres & Hentry & Hdb).
  - done.
  - simpl. apply lookup_insert_eq.
  - simpl. by rewrite Hev.
Qed.

(** [Start] ends before the subscription does only when a read of the
    store fails, and then with that read's error; a cache that refuses
    writes never stops it. *)
Theorem Start_stops_on_store_error (sub : list (Event Chunk)) (p : proxy D) :
  (Start sub p).1 = ErrSubscriptionTerminated
  ∨ ∃ ev d d',
      ev ∈ sub ∧ Offset (Payload ev) ≠ 0%Z
      ∧ getLogs (RunID (Payload ev)) (Phase (Payload ev)) d
        = (Err (Start sub p).1, d').
Proof.
  revert p. induction sub as [|ev sub IH]; intros p; [by left|].
  rewrite Start_cons.
  destruct (Start_chunk (Payload ev) p) as [[err|] p1] eqn:Hstep; simpl.
  - right. exists ev, (db p). revert Hstep. run_proxy.
    destruct (bool_decide_reflect (Offset (Payload ev) = 0%Z)); simpl.
    { by destruct (accepts _ _ _). }
    destruct (entries (cache p) !! _); simpl.
    { by destruct (accepts _ _ _). }
    destruct (getLogs _ _ _) as [[logs|e] d] eqn:Hlogs; simpl.
    { by destruct (accepts _ _ _). }
    intros [= <- <-]. exists d. split; [by left|done].
  - destruct (IH p1) as [Hend|(ev' & d & d' & Hin & Hoff & Hlogs)];
      [by left|right].
    exists ev', d, d'. split; [by right|done].
Qed.

(** After a miss that the cache took, the next [get] for the same run and
    phase, whatever window it asks for, is served from the cache: it reads
    the cache once, goes nowhere near the store, and returns the window of
    the bytes the first [get] fetched. *)
Theorem get_after_miss (opts opts' : GetChunkOptions) (p : proxy D)
    (data : bytes) (d : D) :
  get_RunID opts' = get_RunID opts →
  get_Phase opts' = get_Phase opts →
  entries (cache p) !! cacheKey (get_RunID opts) (get_Phase opts) = None →
  getLogs (get_RunID opts) (get_Phase opts) (db p) = (Ok data, d) →
  accepts (cache p) (cacheKey (get_RunID opts) (get_Phase opts)) data
    = true →
  let p1 := (get opts p).2 in
  get opts' p1 =
  (Ok {| RunID := get_RunID opts; Phase := get_Phase opts;
         Data := slice (get_Offset opts') (get_Offset opts' + Limit opts')
                   data;
         Offset := 0 |},
   {| cache := cache p1; db := d;
      trace := trace p1
               ++ [CacheGet (cacheKey (get_RunID opts) (get_Phase opts))] |}).
Proof.
  intros Hrun Hphase Hmiss Hlogs Hacc. run_proxy.
  rewrite Hrun, Hphase, Hmiss; simpl. rewrite Hlogs; simpl.
  rewrite Hacc; simpl. by rewrite lookup_insert_eq.
Qed.

(** Neither [Start] nor [get] ever writes to the store: of the proxy's
    operations only [put] does. *)
Theorem only_put_writes_store (sub : list (Event Chunk))
    (opts : GetChunkOptions) (p : proxy D) :
  (∃ new, trace (Start sub p).2 = trace p ++ new ∧ puts new = [])
  ∧ (∃ new, trace (get opts p).2 = trace p ++ new ∧ puts new = []).
Proof.
  split.
  - revert p. induction sub as [|ev sub IH]; intros p.
    { exists []. by rewrite app_nil_r. }
    rewrite Start_cons.
    assert (Hstep : ∃ new, trace (Start_chunk (Payload ev) p).2
                           = trace p ++ new ∧ puts new = []).
    { run_proxy.
      destruct (bool_decide _); simpl.
      - destruct (accepts _ _ _); simpl; eexists;
          (split; [by rewrite <- ?app_assoc|done]).
      - destruct (entries (cache p) !! _); simpl.
        + destruct (accepts _ _ _); simpl; eexists;
            (split; [by rewrite <- ?app_assoc|done]).
        + destruct (getLogs _ _ _) as [[logs|e] d]; simpl.
          * destruct (accepts _ _ _); simpl; eexists;
              (split; [by rewrite <- ?app_assoc|done]).
          * eexists; (split; [by rewrite <- ?app_assoc|done]). }
    destruct Hstep as (new1 & Htr1 & Hp1).
    destruct (Start_chunk (Payload ev) p) as [[err|] p1]; simpl in *.
    { by exists new1. }
    destruct (IH p1) as (new2 & Htr2 & Hp2).
    exists (new1 ++ new2). split.
    + by rewrite Htr2, Htr1, app_assoc.
    + unfold puts in *. by rewrite omap_app, Hp1, Hp2.
  - run_proxy.
    destruct (entries (cache p) !! _); simpl.
    { eexists; (split; [done|done]). }
    destruct (getLogs _ _ _) as [[logs|e] d]; simpl.
    + destruct (accepts _ _ _); simpl; eexists;
        (split; [by rewrite <- ?app_assoc|done]).
    + eexists; (split; [by rewrite <- ?app_assoc|done]).
Qed.

End Proxy.

Import Samples.

Lemma Start_other_keys_witness :
  let p := proxyOf [("R.plan.log", b "init"); ("S.plan.log", b "other")]
             (λ _ _, true) in
  let sub := [mkEvent UpdatedEvent
                {| RunID := "R"; Phase := "plan"; Data := b "new";
                   Offset := 0 |}] in
  Forall (λ ev, key_of (Payload ev) ≠ "S.plan.log") sub
  ∧ entries (cache (Start (DB := fixedStore []) sub p).2) !! "S.plan.log"
    = entries (cache p) !! "S.plan.log".
Proof.
  intros p sub.
  assert (Hsub : Forall (λ ev, key_of (Payload ev) ≠ "S.plan.log") sub).
  { repeat constructor. intros H. vm_compute in H. discriminate H. }
  split; [exact Hsub|].
  exact (Start_other_keys (DB := fixedStore []) sub p "S.plan.log" Hsub).
Defined.

(** Scenario "happy path plan" of the spec: the chunks "init" and "plan"
    leave "initplan" in the cache. *)
Lemma Start_stream_witness :
  let p := proxyOf [("R.plan.log", b "stale")] (λ _ _, true) in
  let first := {| RunID := "R"; Phase := "plan"; Data := b "init";
                  Offset := 0 |} in
  let next := {| RunID := "R"; Phase := "plan"; Data := b "plan";
                 Offset := 4 |} in
  let sub := [mkEvent UpdatedEvent next] in
  Forall (λ ev, continues first (Payload ev)) sub
  ∧ (Start (DB := downStore) (mkEvent CreatedEvent first :: sub) p).1
    = ErrSubscriptionTerminated
  ∧ entries (cache (Start (DB := downStore)
                      (mkEvent CreatedEvent first :: sub) p).2)
      !! "R.plan.log"
    = Some (b "initplan").
Proof.
  intros p first next sub.
  assert (Hsub : Forall (λ ev, continues first (Payload ev)) sub).
  { repeat constructor. discriminate. }
  split; [exact Hsub|].
  destruct (Start_stream (DB := downStore) first sub
              (mkEvent CreatedEvent first) p eq_refl eq_refl Hsub)
    as (Hres & Hentry & _).
  - intros k v. reflexivity.
  - split; [exact Hres|exact Hentry].
Defined.

Lemma get_after_miss_witness :
  let db := fixedStore (b "initplan") in
  let p := proxyOf [] (λ _ _, true) in
  let opts := {| get_RunID := "R"; get_Phase := "plan"; Limit := 4;
                 get_Offset := 0 |} in
  let opts' := {| get_RunID := "R"; get_Phase := "plan"; Limit := 4;
                  get_Offset := 4 |} in
  let p1 := (get (DB := db) opts p).2 in
  (get (DB := db) opts' p1).1
  = Ok {| RunID := "R"; Phase := "plan";
          Data := slice 4 (4 + 4) (b "initplan"); Offset := 0 |}
  ∧ fetches (trace (get (DB := db) opts' p1).2) = [("R", "plan")].
Proof.
  intros db p opts opts' p1.
  assert (Hget := get_after_miss (DB := db) opts opts' p (b "initplan") tt
                    eq_refl eq_refl).
  cbv zeta in Hget. subst p1. rewrite Hget.
  - split; reflexivity.
  - vm_compute. reflexivity.
  - reflexivity.
  - reflexivity.
Defined.

End LogsExtra.

(** * The cache key of a run and phase *)

Module CacheKeyProps.
Import Stdlib.Strings.Ascii.
Import Logs GoStrings.

(** A string without a dot in it. *)
Fixpoint dot_free (s : string) : bool :=
  match s with
  | "" => true
  | String c s' => negb (Ascii.eqb c "."%char) && dot_free s'
  end.

Lemma dotted_split (r r' x x' : string) :
  dot_free r = true → dot_free r' = true →
  r +:+ String "."%char x = r' +:+ String "."%char x' →
  r = r' ∧ x = x'.
Proof.
  revert r'. induction r as [|c r IH]; intros [|c' r'] Hr Hr' H;
    simpl in *.
  - by injection H.
  - injection H as <- _. done.
  - injection H as -> _. done.
  - injection H as <- H.
    apply andb_true_iff in Hr as [_ Hr], Hr' as [_ Hr'].
    destruct (IH r' Hr Hr' H) as [-> ->]. done.
Qed.

(** Runs whose IDs have no dot in them never share a cache entry: for
    such IDs the cache key determines the run and the phase. *)
Theorem cacheKey_inj (runID runID' : string) (phase phase' : PhaseType) :
  dot_free runID = true → dot_free runID' = true →
  cacheKey runID phase = cacheKey runID' phase' →
  runID = runID' ∧ phase = phase'.
Proof.
  intros Hr Hr' H. unfold cacheKey in H. simpl in H.
  destruct (dotted_split _ _ _ _ Hr Hr' H) as [-> Hp].
  split; [done|]. by apply app_inv_tail in Hp.
Qed.

(** With dots in the IDs two different runs can meet under one key. *)
Example cacheKey_meets :
  cacheKey "run.a" "plan" = cacheKey "run" "a.plan".
Proof. reflexivity. Qed.

Lemma cacheKey_inj_witness :
  dot_free "run-1" = true ∧ dot_free "run-2" = true
  ∧ (cacheKey "run-1" "plan" = cacheKey "run-2" "apply" → False).
Proof.
  split; [reflexivity|]. split; [reflexivity|].
  intros H.
  destruct (cacheKey_inj "run-1" "run-2" "plan" "apply" eq_refl eq_refl H)
    as [Hrun _].
  discriminate Hrun.
Defined.

End CacheKeyProps.

(** * More on the agent service: the wait for jobs, repeated and foreign
      calls, deletion of pools *)

Module AgentExtra.
Import Agent AgentProps.

Section Service.
Context {R T : Type} {PC : phaseClient R} {TF : tokenFactory T}
  {AZ : Authorizer}.

Implicit Types (w : world R T) (ctx : context) (spec : JobSpec).

Lemma getAgentJobs_wait_skip agentID (ev : Event Job) sub :
  ¬ for_agent agentID (Payload ev) →
  getAgentJobs_wait agentID (ev :: sub) = getAgentJobs_wait agentID sub.
Proof.
  unfold for_agent. intros Hno. simpl.
  destruct (decide (AgentID (Payload ev) = None)) as [Hnil|Hnil].
  { by rewrite (bool_decide_eq_true_2 _ Hnil). }
  rewrite (bool_decide_eq_false_2 _ Hnil); simpl.
  destruct (decide (AgentID (Payload ev) = Some agentID)) as [Hid|Hid].
  - rewrite (bool_decide_eq_false_2 (_ ≠ _)) by auto.
    destruct (Status (Payload ev)) eqn:Hst; try done.
    + destruct Hno; auto.
    + destruct (decide (Signaled (Payload ev) = None)) as [Hs|Hs].
      * by rewrite (bool_decide_eq_false_2 (_ ≠ _)) by auto.
      * destruct Hno; auto.
  - by rewrite (bool_decide_eq_true_2 _ Hid).
Qed.

Lemma getAgentJobs_wait_take agentID (ev : Event Job) sub :
  for_agent agentID (Payload ev) →
  getAgentJobs_wait agentID (ev :: sub) = [Payload ev].
Proof.
  intros [Hid Hst]. simpl.
  rewrite (bool_decide_eq_false_2 (_ = None)) by congruence.
  rewrite (bool_decide_eq_false_2 (_ ≠ _)) by auto. simpl.
  destruct Hst as [->|[-> Hs]]; [done|].
  by rewrite (bool_decide_eq_true_2 _ Hs).
Qed.

(** The wait on the jobs stream hands out the payload of the first event
    that carries a job for the agent, alone, and looks no further; a stream
    that closes without such an event gives the empty list. *)
Theorem getAgentJobs_wait_first agentID (sub : list (Event Job)) :
  (Forall (λ ev, ¬ for_agent agentID (Payload ev)) sub →
     getAgentJobs_wait agentID sub = [])
  ∧ (∀ pre ev post,
       sub = pre ++ ev :: post →
       Forall (λ ev, ¬ for_agent agentID (Payload ev)) pre →
       for_agent agentID (Payload ev) →
       getAgentJobs_wait agentID sub = [Payload ev]).
Proof.
  split.
  - induction 1 as [|ev sub' Hev _ IH]; [done|].
    by rewrite getAgentJobs_wait_skip.
  - intros pre ev post -> Hpre Hev.
    induction Hpre as [|ev' pre' Hev' _ IH]; simpl app.
    + by apply getAgentJobs_wait_take.
    + by rewrite getAgentJobs_wait_skip.
Qed.

(** Jobs already in the store come first: when the store's query finds
    jobs for the agent, [getAgentJobs] returns exactly those and the stream
    plays no part; only when it finds none does the answer come from the
    stream. *)
Theorem getAgentJobs_store_first ctx agentID (sub : list (Event Job)) w s js :
  ctx_subject ctx = Some s →
  is_agent s agentID →
  (db_getAllocatedAndSignaledJobs agentID w).1 = Ok js →
  (js ≠ [] → (getAgentJobs ctx agentID sub w).1 = Ok js)
  ∧ (js = [] →
     (getAgentJobs ctx agentID sub w).1
     = Ok (getAgentJobs_wait agentID sub)).
Proof.
  intros Hs (a & Ha & Hid) Hdb.
  assert (Hrun : (getAgentJobs ctx agentID sub w).1
                 = (getAgentJobs_jobs agentID sub w).1).
  { unfold getAgentJobs, SubjectFromContext. rewrite Hs.
    destruct s; simpl in Ha; try done; simplify_eq; simpl;
      by rewrite (bool_decide_eq_false_2 (_ ≠ _)) by auto. }
  rewrite Hrun. unfold getAgentJobs_jobs, bind, ret.
  destruct (db_getAllocatedAndSignaledJobs agentID w) as [r w1].
  simpl in Hdb. subst r.
  destruct js as [|j js]; simpl; split; done.
Qed.


(** What a token tells about the call that returned it. *)
Lemma startJob_ok_inv ctx spec w job token w1 :
  jobs w !! spec = Some job →
  startJob ctx spec w = (Ok token, w1) →
  (∃ a, caller_agent ctx = Some a ∧ AgentID job = Some (agent_ID a))
  ∧ jobs w1 = <[spec := set_Status JobRunning job]> (jobs w).
Proof.
  intros Hjob. run_service. unfold Job_startJob.
  destruct ctx as [[s|]]; simpl; [|done].
  destruct s; simpl; rewrite ?Hjob; try done.
  all: repeat case_step; simpl; try done.
  all: intros [= <- <-]; simpl; eauto.
Qed.

(** The assigned agent calling for a job that is not allocated. *)
Lemma startJob_not_allocated ctx spec w job a :
  jobs w !! spec = Some job →
  caller_agent ctx = Some a →
  AgentID job = Some (agent_ID a) →
  Status job ≠ JobAllocated →
  startJob ctx spec w =
  (Err ErrInvalidStateTransition,
   {| pools := pools w; agents := agents w; jobs := jobs w;
      runs := runs w; tokens := tokens w;
      trace := trace w ++ [Log LevelError "starting job"] |}).
Proof.
  intros Hjob Ha Hid Hst. revert Ha. run_service. unfold Job_startJob.
  destruct ctx as [[s|]]; simpl; [|done].
  destruct s; simpl; try done; intros [= <-]; rewrite Hjob, Hid; simpl.
  all: rewrite (bool_decide_eq_false_2 (_ ≠ _)) by auto; simpl.
  all: by destruct (Status job).
Qed.

(** Starting twice: after [startJob] has handed out a token, the same
    call again is refused with [ErrInvalidStateTransition]; the job stays
    [running], the run service is not called a second time and no second
    token is minted. *)
Theorem startJob_twice ctx spec w job token w1 :
  jobs w !! spec = Some job →
  startJob ctx spec w = (Ok token, w1) →
  jobs w1 !! spec = Some (set_Status JobRunning job)
  ∧ (startJob ctx spec w1).1 = Err ErrInvalidStateTransition
  ∧ jobs (startJob ctx spec w1).2 = jobs w1
  ∧ grew_by w1 (startJob ctx spec w1).2 [Log LevelError "starting job"].
Proof.
  intros Hjob Hok.
  destruct (startJob_ok_inv ctx spec w job token w1 Hjob Hok)
    as ((a & Ha & Hid) & Hjobs).
  assert (Hrunning : jobs w1 !! spec = Some (set_Status JobRunning job))
    by (rewrite Hjobs; apply lookup_insert_eq).
  split; [done|].
  by rewrite (startJob_not_allocated ctx spec w1 _ a Hrunning Ha Hid).
Qed.




(** Looking a pool up, and checking a workspace against it, only reads:
    the store's tables, the run service and the token service are after
    [GetAgentPool] and [checkWorkspacePoolAccess] what they were before,
    and all either adds to the trace is a log line. *)
Theorem pool_checks_read_only ctx poolID (ws : Workspace) w :
  let unchanged w' :=
    pools w' = pools w ∧ agents w' = agents w ∧ jobs w' = jobs w
    ∧ runs w' = runs w ∧ tokens w' = tokens w
    ∧ ∃ new, grew_by w w' new
             ∧ Forall (λ e, ∃ level msg, e = Log level msg) new in
  unchanged (GetAgentPool ctx poolID w).2
  ∧ unchanged (checkWorkspacePoolAccess ctx ws w).2.
Proof.
  intros unchanged. subst unchanged. unfold grew_by. simpl.
  assert (Hget : ∀ id,
    let w' := (GetAgentPool ctx id w).2 in
    pools w' = pools w ∧ agents w' = agents w ∧ jobs w' = jobs w
    ∧ runs w' = runs w ∧ tokens w' = tokens w
    ∧ ∃ new, trace w' = trace w ++ new
             ∧ Forall (λ e, ∃ level msg, e = Log level msg) new).
  { intros id. run_service.
    destruct (pools w !! id) as [pool|]; simpl.
    - destruct (CanAccess _ _ _); simpl; repeat split; try done.
      + eexists; split; [done|]. repeat constructor; eauto.
      + exists []. by rewrite app_nil_r.
    - repeat split; try done.
      eexists; split; [done|]. repeat constructor; eauto. }
  split; [apply Hget|].
  unfold checkWorkspacePoolAccess, bind, ret.
  destruct (ws_AgentPoolID ws) as [id|]; simpl.
  - specialize (Hget id). simpl in Hget.
    destruct (GetAgentPool ctx id w) as [[pool|err] w1]; simpl in *; [|done].
    destruct (OrganizationScoped pool); [done|].
    by destruct (bool_decide _).
  - repeat split; try done. exists []. by rewrite app_nil_r.
Qed.

End Service.

Section Finishing.
Context {R T : Type} {PC : phaseClient R}.
Variable Job_finishJob : Job → JobStatus → result Job.

Implicit Types (w : world R T) (ctx : context) (spec : JobSpec).


(** A status other than finished, errored and canceled: [finishJob] makes
    no phase call at all and goes straight to the job's own transition
    check, whose verdict it returns; the job is written back only if that
    check lets the status through. *)
Theorem finishJob_other_status spec opts w job caller :
  jobs w !! spec = Some job →
  finish_call spec (opts_Status opts) = None →
  let out := finishJob Job_finishJob
               {| ctx_subject := Some (JobSubject caller) |} spec opts w in
  (∃ new, grew_by w out.2 new ∧ filter is_phase_call new = [])
  ∧ runs out.2 = runs w
  ∧ match Job_finishJob job (opts_Status opts) with
    | Ok job' => out.1 = None ∧ jobs out.2 = <[spec := job']> (jobs w)
    | Err err => out.1 = Some err ∧ jobs out.2 = jobs w
    end.
Proof using Type.
  intros Hjob Hcall out. subst out. unfold grew_by.
  run_service. rewrite Hjob. unfold finish_call in Hcall.
  destruct (opts_Status opts); try done; simpl.
  all: repeat case_step; simpl.
  all: repeat split; try done.
  all: eexists; (split; [by rewrite <- ?app_assoc|done]).
Qed.

End Finishing.

Section Canceling.
Context {R T : Type}.
Variable Job_cancel : Job → Run → result (Job * option bool).

Implicit Types (w : world R T) (ctx : context).

(** [cancelJob] never reports [ErrResourceNotFound], bare or wrapped: an
    error it returns is one [errors.Is] does not match with it, and the
    stored jobs are untouched.  When it returns nil, either the update
    went through, or it failed with an error matching
    [ErrResourceNotFound] and nothing was written. *)
Theorem cancelJob_never_not_found ctx (run : Run) w :
  let spec := {| RunID := run_ID run; Phase := run_Phase run |} in
  let out := cancelJob Job_cancel ctx run w in
  let update := db_updateJob spec (λ job, ret (Job_cancel job run)) w in
  (∀ err, out.1 = Some err →
     errors_Is err ErrResourceNotFound = false
     ∧ update.1 = Err err ∧ jobs out.2 = jobs w)
  ∧ (out.1 = None →
     (∃ job signal, update.1 = Ok (job, signal)
                    ∧ jobs out.2 = <[spec := job]> (jobs w))
     ∨ (∃ err, update.1 = Err err
               ∧ errors_Is err ErrResourceNotFound = true
               ∧ out.2 = w)).
Proof using Type.
  intros spec out update. subst spec out update. run_service.
  destruct (jobs w !! _) as [job|]; simpl.
  - destruct (Job_cancel job run) as [[job' signal]|err]; simpl.
    + split; [by destruct signal|]. intros _. left. exists job', signal.
      by destruct signal.
    + destruct (errors_Is err ErrResourceNotFound) eqn:His; simpl.
      * split; [done|]. intros _. right. eauto.
      * split; [|done]. by intros ? [= <-].
  - split; [done|]. intros _. right. eauto.
Qed.

End Canceling.
(** ** The theorems at sample worlds *)

Import Samples.

Lemma getAgentJobs_wait_first_witness :
  let signalled := jobAt JobRunning (Some "agent-A") (Some true) in
  let pre := [mkEvent DeletedEvent (jobAt JobUnallocated None None);
              mkEvent UpdatedEvent (jobAt JobRunning (Some "agent-A") None)] in
  let post := [mkEvent UpdatedEvent
                 (jobAt JobAllocated (Some "agent-A") None)] in
  getAgentJobs_wait "agent-A" (pre ++ mkEvent UpdatedEvent signalled :: post)
  = [signalled].
Proof.
  intros signalled pre post.
  apply (proj2 (getAgentJobs_wait_first "agent-A"
                  (pre ++ mkEvent UpdatedEvent signalled :: post))
           pre (mkEvent UpdatedEvent signalled) post eq_refl).
  - repeat constructor; unfold for_agent; simpl.
    + intros [H _]. discriminate H.
    + intros [_ [H|[_ H]]]; [discriminate H|by apply H].
  - split; [reflexivity|]. right. split; [reflexivity|discriminate].
Defined.

Lemma getAgentJobs_store_first_witness :
  let job := jobAt JobAllocated (Some "agent-A") None in
  let w := worldOf [] [] [(specJ1, job)] in
  let ctx := asSubject (serverAgent agentA) in
  let late := [mkEvent UpdatedEvent
                 (jobAt JobRunning (Some "agent-A") (Some true))] in
  (getAgentJobs ctx "agent-A" late w).1 = Ok [job].
Proof.
  intros job w ctx late.
  apply (proj1 (getAgentJobs_store_first ctx "agent-A" late w
                  (serverAgent agentA) [job] eq_refl
                  (ex_intro _ agentA (conj eq_refl eq_refl))
                  ltac:(vm_compute; reflexivity))).
  discriminate.
Defined.


Lemma startJob_twice_witness :
  let job := jobAt JobAllocated (Some "agent-A") None in
  let w := worldOf [] [("agent-A", agentA)] [(specJ1, job)] in
  let ctx := asSubject (serverAgent agentA) in
  let w1 := (startJob (PC := okPhases) (TF := countingTokens)
               ctx specJ1 w).2 in
  jobs w !! specJ1 = Some job
  ∧ startJob (PC := okPhases) (TF := countingTokens) ctx specJ1 w
    = (Ok (b "run-1/plan"), w1)
  ∧ (startJob (PC := okPhases) (TF := countingTokens) ctx specJ1 w1).1
    = Err ErrInvalidStateTransition.
Proof.
  intros job w ctx w1.
  assert (Hjob : jobs w !! specJ1 = Some job) by (vm_compute; reflexivity).
  assert (Hok : startJob (PC := okPhases) (TF := countingTokens)
                  ctx specJ1 w = (Ok (b "run-1/plan"), w1))
    by (vm_compute; reflexivity).
  split; [exact Hjob|]. split; [exact Hok|].
  exact (proj1 (proj2 (startJob_twice (PC := okPhases)
                         (TF := countingTokens) ctx specJ1 w job
                         (b "run-1/plan") w1 Hjob Hok))).
Defined.

(** A job's token finishes another job. *)
Example finishJob_foreign_job :
  let mine := {| Spec := {| RunID := "run-9"; Phase := "apply" |};
                 Status := JobRunning; AgentID := Some "agent-B";
                 Signaled := None; WorkspaceID := "ws-9";
                 Organization := "other" |} in
  let theirs := jobAt JobRunning (Some "agent-A") None in
  let w := worldOf [] [] [(specJ1, theirs)] in
  let out := finishJob (PC := okPhases) sample_finishJob
               (asSubject (JobSubject mine)) specJ1
               {| opts_Status := JobErrored; opts_Error := "" |} w in
  out.1 = None
  ∧ jobs out.2 !! specJ1 = Some (set_Status JobErrored theirs).
Proof. vm_compute. done. Qed.


Lemma finishJob_other_status_witness :
  let job := jobAt JobRunning (Some "agent-A") None in
  let w := worldOf [] [] [(specJ1, job)] in
  let opts := {| opts_Status := JobAllocated; opts_Error := "" |} in
  let out := finishJob (PC := downPhases) sample_finishJob
               (asSubject (JobSubject job)) specJ1 opts w in
  jobs w !! specJ1 = Some job
  ∧ out.1 = Some ErrInvalidStateTransition ∧ jobs out.2 = jobs w.
Proof.
  intros job w opts out.
  assert (Hjob : jobs w !! specJ1 = Some job) by (vm_compute; reflexivity).
  split; [exact Hjob|].
  exact (proj2 (proj2 (finishJob_other_status (PC := downPhases)
                         sample_finishJob specJ1 opts w job job
                         Hjob eq_refl))).
Defined.

End AgentExtra.

(** * Properties of allocation, registration and the agent-token
      authenticator *)

Module AgentMoreProps.
Import Agent AgentProps AgentMore.

Ltac run_more :=
  cbv beta iota zeta delta
    [allocateJob reallocateJob registerAgent registerAgent_inner
     agentTokenSubject getAgent db_getAgent db_createAgent
     db_updateJob_unwinding db_updateJob logger emit bind ret
     SubjectFromContext Header_Get];
  simpl.

Section Reallocating.
Context {R T : Type}.
Variable Job_reallocate : Job → string → result Job.

Implicit Types (w : world R T) (spec : JobSpec).

(** For a mutator that does not panic, the unwinding update is the
    update. *)
Lemma db_updateJob_unwinding_returns {A} spec
    (fn : Job → M (world R T) (result (Job * A))) w :
  db_updateJob_unwinding spec
    (λ job, let* r := fn job in ret (Returns r)) w
  = (let* r := db_updateJob spec fn in ret (Returns r)) w.
Proof using Type.
  run_more. destruct (jobs w !! spec) as [job|]; [|done].
  destruct (fn job w) as [[[job' a]|err] w1]; done.
Qed.

(** [reallocateJob] reads the job's current agent before it asks the
    state machine.  For a job without an agent that read is a nil
    dereference: the call panics, [job.reallocate] is not asked, nothing
    is logged and nothing is written.  For a job with an agent the call
    returns the verdict of [job.reallocate], and writes the job back only
    on success. *)
Theorem reallocateJob_reads_agent_first spec agentID w job :
  jobs w !! spec = Some job →
  let out := reallocateJob Job_reallocate spec agentID w in
  (AgentID job = None → out = (Panics nilDereference, w))
  ∧ (∀ from, AgentID job = Some from →
       match Job_reallocate job agentID with
       | Ok job' =>
           out.1 = Returns (Ok job')
           ∧ jobs out.2 = <[spec := job']> (jobs w)
       | Err err =>
           out.1 = Returns (Err err) ∧ jobs out.2 = jobs w
       end).
Proof using Type.
  intros Hjob out. subst out. run_more. rewrite Hjob. split.
  - by intros ->.
  - intros from ->. simpl. by destruct (Job_reallocate job agentID).
Qed.

End Reallocating.

Section Registering.
Context {R T O : Type}.
Variable register : registerAgentOptions O → M (world R T) (result Agent).

Implicit Types (w : world R T) (ctx : context).

(** Who may register: only the two unregistered agent subjects.  For any
    other subject (a registered agent, the manager, a job, a user)
    [registerAgent] returns [ErrUnauthorizedAgentRegistration] without
    running [register]: the world is what it was, with the error logged. *)
Theorem registerAgent_unregistered_only ctx opts w s :
  ctx_subject ctx = Some s →
  s ≠ unregisteredServerAgent →
  (∀ pool tokenID, s ≠ unregisteredPoolAgent pool tokenID) →
  registerAgent register ctx opts w =
  (Err ErrUnauthorizedAgentRegistration,
   {| pools := pools w; agents := agents w; jobs := jobs w;
      runs := runs w; tokens := tokens w;
      trace := trace w ++ [Log LevelError "registering agent"] |}).
Proof using Type.
  intros Hs Hserver Hpool. run_more. rewrite Hs.
  destruct s; simpl; try done.
  by destruct (Hpool pool agentTokenID).
Qed.


End Registering.

Section Authenticating.
Context {R T : Type}.
Variable db_getPoolByTokenID : string → world R T → result Pool.
Variable agentIDHeader : string.

Implicit Types (w : world R T).

(** What the authenticator makes of an agent token whose pool is found:
    without an agent-ID header (or with an empty one) the subject is the
    unregistered pool agent of the token; with one that names no stored
    agent the call fails with an error that wraps, and [errors.Is] still
    matches, [ErrResourceNotFound].  The world is left alone. *)
Theorem agentTokenSubject_unregistered tokenID headers w pool :
  db_getPoolByTokenID tokenID w = Ok pool →
  let out := agentTokenSubject db_getPoolByTokenID agentIDHeader
               tokenID (Ok headers) w in
  out.2 = w
  ∧ (default "" (headers !! agentIDHeader) = "" →
     out.1 = Ok (unregisteredPoolAgent pool tokenID))
  ∧ (∀ agentID,
       headers !! agentIDHeader = Some agentID → agentID ≠ "" →
       agents w !! agentID = None →
       ∃ err, out.1 = Err err ∧ err ≠ ErrResourceNotFound
              ∧ errors_Is err ErrResourceNotFound = true).
Proof using Type.
  intros Hpool out. subst out. run_more. rewrite Hpool.
  split; [|split].
  - destruct (bool_decide _); [|done].
    by destruct (agents w !! _).
  - intros ->. done.
  - intros agentID -> Hne Hmiss. simpl.
    rewrite (bool_decide_eq_true_2 _ Hne), Hmiss.
    eexists. split; [done|]. split; [done|]. reflexivity.
Qed.


End Authenticating.
(** ** The theorems at sample worlds *)

Import Samples MoreSamples.

Lemma reallocateJob_reads_agent_first_witness :
  let job := jobAt JobAllocated None None in
  let w := worldOf [] [] [(specJ1, job)] in
  jobs w !! specJ1 = Some job
  ∧ reallocateJob sample_reallocate specJ1 "agent-B" w
    = (Panics nilDereference, w).
Proof.
  intros job w.
  assert (Hjob : jobs w !! specJ1 = Some job) by (vm_compute; reflexivity).
  split; [exact Hjob|].
  exact (proj1 (reallocateJob_reads_agent_first sample_reallocate specJ1
                  "agent-B" w job Hjob) eq_refl).
Defined.

Lemma registerAgent_unregistered_only_witness :
  let w := worldOf [] [("agent-A", agentA)] [] in
  let opts := {| reg_AgentPoolID := Some "pool-1"; reg_details := tt |} in
  (registerAgent sample_register (asSubject (serverAgent agentA)) opts w).1
  = Err ErrUnauthorizedAgentRegistration.
Proof.
  intros w opts.
  exact (f_equal fst
           (registerAgent_unregistered_only sample_register
              (asSubject (serverAgent agentA)) opts w (serverAgent agentA)
              eq_refl ltac:(discriminate) ltac:(discriminate))).
Defined.


Lemma agentTokenSubject_unregistered_witness :
  let pool := poolP true [] [] in
  let w := worldOf [("pool-1", pool)] [] [] in
  (agentTokenSubject sample_getPoolByTokenID sample_agentIDHeader
     "token-1" (Ok ∅) w).1
  = Ok (unregisteredPoolAgent pool "token-1").
Proof.
  intros pool w.
  assert (Hpool : sample_getPoolByTokenID "token-1" w = Ok pool)
    by (vm_compute; reflexivity).
  exact (proj1 (proj2 (agentTokenSubject_unregistered
                         sample_getPoolByTokenID sample_agentIDHeader
                         "token-1" ∅ w pool Hpool)) eq_refl).
Defined.


End AgentMoreProps.

(** * Properties of the generated paths *)

Module PathsProps.
Import Paths GoStrings.

(** Each path function is injective: different organizations, and
    different modules, get different paths from it. *)
Theorem paths_injective :
  Inj (=) (=) Modules ∧ Inj (=) (=) CreateModule ∧ Inj (=) (=) NewModule
  ∧ Inj (=) (=) Module' ∧ Inj (=) (=) EditModule
  ∧ Inj (=) (=) UpdateModule ∧ Inj (=) (=) DeleteModule
  ∧ Inj (=) (=) RefreshModule.
Proof.
  unfold Modules, CreateModule, NewModule, Module', EditModule, UpdateModule,
    DeleteModule, RefreshModule.
  repeat split; intros x y H; apply app_inv_head in H;
    first [ exact H | by apply app_inv_tail in H ].
Qed.


(** A module whose name ends in "/edit" shares its page with the edit
    form of another. *)
Example module_path_meets_edit_path :
  Module' "vpc/edit" = EditModule "vpc".
Proof. reflexivity. Qed.

End PathsProps.

(** * Properties of the migration tool's logger *)

Module GooseLoggerProps.
Import Stdlib.Strings.Ascii.
Import GooseLogger GoStrings.

(** [n] copies of the byte [c]. *)
Fixpoint repeated (c : ascii) (n : nat) : string :=
  match n with
  | O => ""
  | S n => String c (repeated c n)
  end.

Definition starts_with (c : ascii) (s : string) : Prop :=
  ∃ s', s = String c s'.

Definition ends_with (c : ascii) (s : string) : Prop :=
  ∃ s', s = s' +:+ String c "".

Lemma append_nil_l (s : string) : "" +:+ s = s.
Proof. reflexivity. Qed.

Lemma append_cons (a : ascii) (s t : string) :
  String a s +:+ t = String a (s +:+ t).
Proof. reflexivity. Qed.

Lemma append_assoc (a b c : string) : (a +:+ b) +:+ c = a +:+ b +:+ c.
Proof. induction a as [|x a IH]; [done|]. by rewrite !append_cons, IH. Qed.

Ltac norm_app := rewrite ?append_nil_l, ?append_cons in *.

Lemma not_ends_with_nil (c : ascii) : ¬ ends_with c "".
Proof. intros [[|a s'] H]; norm_app; discriminate H. Qed.

Lemma ends_with_cons (c a k : ascii) (kept : string) :
  ends_with c (String a (String k kept)) → ends_with c (String k kept).
Proof.
  intros [[|a' s'] H]; norm_app; [discriminate H|].
  injection H as -> H. by exists s'.
Qed.

Lemma trimRightByte_spec (s : string) (c : ascii) :
  (∃ n, s = trimRightByte s c +:+ repeated c n)
  ∧ ¬ ends_with c (trimRightByte s c).
Proof.
  induction s as [|a s [[n IHn] IHe]]; simpl.
  - split; [by exists 0|]. apply not_ends_with_nil.
  - destruct (trimRightByte s c) as [|k kept] eqn:Hkept; norm_app.
    + destruct (Ascii.eqb_spec a c) as [->|Hne]; norm_app.
      * split; [exists (S n); by rewrite IHn|]. apply not_ends_with_nil.
      * split; [exists n; by rewrite IHn|].
        intros [[|a' [|??]] H]; norm_app; simplify_eq.
    + split; [exists n; by rewrite IHn at 1|].
      intros H. by apply IHe, (ends_with_cons c a).
Qed.

Lemma trimLeftByte_spec (s : string) (c : ascii) :
  (∃ n, s = repeated c n +:+ trimLeftByte s c)
  ∧ ¬ starts_with c (trimLeftByte s c)
  ∧ (¬ ends_with c s → ¬ ends_with c (trimLeftByte s c)).
Proof.
  induction s as [|a s [[n IHn] [IHs IHe]]]; simpl.
  - split; [by exists 0|]. split; [by intros [? H]|done].
  - destruct (Ascii.eqb_spec a c) as [->|Hne].
    + split; [exists (S n); simpl; norm_app; by rewrite <- IHn|].
      split; [done|]. intros Hend. apply IHe. intros [s' ->].
      apply Hend. by exists (String c s').
    + split; [by exists 0|]. split; [|done].
      intros [s' H]. by injection H.
Qed.

(** What [strings.Trim] with a one-byte cutset returns: the input with
    the run of that byte at its front and the run at its back taken off,
    and nothing else; the result neither starts nor ends with the byte. *)
Lemma strings_Trim_spec (s : string) (c : ascii) :
  (∃ n m, s = repeated c n +:+ strings_Trim s c +:+ repeated c m)
  ∧ ¬ starts_with c (strings_Trim s c)
  ∧ ¬ ends_with c (strings_Trim s c).
Proof.
  unfold strings_Trim.
  destruct (trimRightByte_spec s c) as [[m Hm] Hend].
  destruct (trimLeftByte_spec (trimRightByte s c) c) as [[n Hn] [Hs He]].
  split; [|by auto].
  exists n, m. rewrite <- append_assoc, <- Hn. exact Hm.
Qed.

Lemma trimRightByte_snoc (s : string) (c : ascii) :
  trimRightByte (s +:+ String c "") c = trimRightByte s c.
Proof.
  induction s as [|a s IH]; simpl.
  - by rewrite Ascii.eqb_refl.
  - by rewrite IH.
Qed.

Lemma trimRightByte_cons (s : string) (c : ascii) :
  trimLeftByte (trimRightByte (String c s) c) c
  = trimLeftByte (trimRightByte s c) c.
Proof.
  simpl. destruct (trimRightByte s c) as [|k kept]; simpl.
  - by rewrite Ascii.eqb_refl.
  - by rewrite Ascii.eqb_refl.
Qed.

Section Logger.
Context {V : Type}.
Variable fmt_Sprintf : string → list V → string.

(** [Printf] gives the logger one record, at info level, whose text is
    the format applied to the arguments after the newlines at the front
    and at the back of the format have been taken off: the format used is
    the given one minus those two runs, and neither starts nor ends with a
    newline.  Newlines inside the format stay. *)
Theorem Printf_trims (msg : string) (v : list V) (l : Logger) :
  ∃ format n m,
    (Printf fmt_Sprintf msg v l).2 = l ++ [(LevelInfo, fmt_Sprintf format v)]
    ∧ msg = repeated newline n +:+ format +:+ repeated newline m
    ∧ ¬ starts_with newline format
    ∧ ¬ ends_with newline format.
Proof using Type.
  destruct (strings_Trim_spec msg newline) as [(n & m & Hmsg) [Hs He]].
  exists (strings_Trim msg newline), n, m. done.
Qed.

(** A newline more at the front or at the back of the format makes no
    difference to what [Printf] logs. *)
Theorem Printf_outer_newlines (msg : string) (v : list V) (l : Logger) :
  Printf fmt_Sprintf (String newline msg) v l = Printf fmt_Sprintf msg v l
  ∧ Printf fmt_Sprintf (msg +:+ String newline "") v l
    = Printf fmt_Sprintf msg v l.
Proof using Type.
  unfold Printf, strings_Trim. split.
  - by rewrite trimRightByte_cons.
  - by rewrite trimRightByte_snoc.
Qed.

End Logger.

Example Printf_migration_line :
  (Printf (V := string) (λ format _, format)
     (String newline (String newline ("OK   001_init.sql"
        +:+ String newline ("(12ms)" +:+ String newline ""))))
     [] []).2
  = [(LevelInfo, "OK   001_init.sql" +:+ String newline "(12ms)")].
Proof. vm_compute. reflexivity. Qed.

End GooseLoggerProps.

(** * Properties of the latest-version checker *)

Module ReleasesProps.
Import Releases.

(** The versions written to the database among a run of effects. *)
Definition updates (tr : list Effect) : list string :=
  omap (λ e, match e with DbUpdateLatestVersion v => Some v | _ => None end)
    tr.

Ltac run_releases :=
  cbv beta iota zeta delta
    [StartLatestChecker check check_inner GetLatest s_db_getLatest
     s_db_updateLatestVersion s_latestChecker_check emit bind ret];
  simpl.

Section Service.
Context {Time D E : Type}.
Variable zeroTime : Time.
Variable db_getLatest : D → result (string * Time) * D.
Variable db_updateLatestVersion : string → D → option error * D.
Variable latestChecker_check : Time → E → result string * E.
Variable semver_Compare : string → string → Z.

Implicit Types (s : Service D E).

(** [GetLatest] never reports that nothing is stored: an error it returns
    does not match [ErrResourceNotFound] and comes with the empty version
    and the zero time; when the database has no version yet (its error
    matches [ErrResourceNotFound]) the answer is the default version
    "1.6.0" with the zero time and no error; a stored version is passed on
    with its checkpoint. *)
Theorem GetLatest_default s :
  let '(version, checkpoint, err) := (GetLatest zeroTime db_getLatest s).1 in
  match (db_getLatest (db s)).1 with
  | Ok stored => (version, checkpoint) = stored ∧ err = None
  | Err dberr =>
      checkpoint = zeroTime
      ∧ if errors_Is dberr ErrResourceNotFound
        then version = DefaultTerraformVersion ∧ err = None
        else version = "" ∧ err = Some dberr
  end
  ∧ (∀ e, err = Some e → errors_Is e ErrResourceNotFound = false).
Proof using Type.
  run_releases.
  destruct (db_getLatest (db s)) as [[[latest cp]|dberr] d]; simpl.
  - done.
  - destruct (errors_Is dberr ErrResourceNotFound) eqn:His; simpl.
    + done.
    + repeat split; try done. by intros e [= <-].
Qed.


(** The reads of the stored version among a run of effects. *)
Definition reads (tr : list Effect) : list unit :=
  omap (λ e, match e with DbGetLatest => Some tt | _ => None end) tr.

Lemma check_once s :
  let s' := (check zeroTime db_getLatest db_updateLatestVersion
               latestChecker_check semver_Compare s).2 in
  ∃ new, trace s' = trace s ++ new
         ∧ reads new = [tt]
         ∧ Forall (λ v, v ≠ "") (updates new).
Proof using Type.
  run_releases.
  destruct (db_getLatest (db s)) as [[[latest cp]|dberr] d]; simpl.
  2: destruct (errors_Is dberr ErrResourceNotFound); simpl.
  all: repeat match goal with
         | |- context [latestChecker_check ?t ?e] =>
             destruct (latestChecker_check t e) as [[after|err] e']; simpl
         | |- context [bool_decide ?P] =>
             destruct (bool_decide_reflect P); simpl
         | |- context [db_updateLatestVersion ?v ?d] =>
             destruct (db_updateLatestVersion v d) as [[err|] d']; simpl
         end.
  all: eexists; (split; [by rewrite <- ?app_assoc|]).
  all: split; [done|]; simpl; repeat constructor; done.
Qed.

(** A failed check does not stop the checker: with [ticks] ticks before
    the context is done, [StartLatestChecker] reads the stored version
    [ticks + 1] times, whatever errors the database and the endpoint
    return on the way, and never writes an empty version. *)
Theorem StartLatestChecker_keeps_checking (ticks : nat) s :
  let s' := (StartLatestChecker zeroTime db_getLatest db_updateLatestVersion
               latestChecker_check semver_Compare ticks s).2 in
  ∃ new, trace s' = trace s ++ new
         ∧ length (reads new) = S ticks
         ∧ Forall (λ v, v ≠ "") (updates new).
Proof using Type.
  assert (Hloop : ∀ n s0,
    ∃ new, trace (ticking zeroTime db_getLatest db_updateLatestVersion
                    latestChecker_check semver_Compare n s0).2
           = trace s0 ++ new
           ∧ length (reads new) = n
           ∧ Forall (λ v, v ≠ "") (updates new)).
  { induction n as [|n IH]; intros s0; simpl.
    - exists []. by rewrite app_nil_r.
    - unfold bind.
      destruct (check_once s0) as (new1 & Htr1 & Hr1 & Hu1).
      destruct (check _ _ _ _ _ s0) as [[] s1]; simpl in *.
      destruct (IH s1) as (new2 & Htr2 & Hr2 & Hu2).
      exists (new1 ++ new2). unfold reads, updates in *.
      rewrite !omap_app, Htr2, Htr1, Hr1, length_app, Hr2, app_assoc.
      split; [done|]. split; [done|]. by apply Forall_app. }
  unfold StartLatestChecker, bind.
  destruct (check_once s) as (new1 & Htr1 & Hr1 & Hu1).
  destruct (check _ _ _ _ _ s) as [[] s1]; simpl in *.
  destruct (Hloop ticks s1) as (new2 & Htr2 & Hr2 & Hu2).
  exists (new1 ++ new2). unfold reads, updates in *.
  rewrite !omap_app, Htr2, Htr1, Hr1, length_app, Hr2, app_assoc.
  split; [done|]. split; [done|]. by apply Forall_app.
Qed.

End Service.
End ReleasesProps.

(** * Properties of the webhook handler *)

Module RepoHooksProps.
Import RepoHooks.

Ltac run_handler :=
  cbv beta iota zeta delta
    [repohookHandler h_getHookByID emit bind ret StatusBadRequest
     StatusNotFound StatusUnprocessableEntity];
  simpl.

Section Handlers.
Context {Request U Payload D : Type} {DB : handlerDB U D}.
Variable Error_ : error → string.
Variable As_ErrIgnoreEvent : error → bool.
Variable decode_All : Request → result U.

Implicit Types (h : handlers Request Payload D) (r : Request).

(** The events published, and the HTTP errors written, among a run of
    effects. *)
Definition published (tr : list (Effect Payload))
  : list (Event Payload) :=
  omap (λ e, match e with Publish ev => Some ev | _ => None end) tr.

Definition http_errors (tr : list (Effect Payload)) : list (string * nat) :=
  omap (λ e, match e with HttpError msg code => Some (msg, code) | _ => None
             end) tr.

(** The request goes all the way through: its webhook ID decodes, the
    hook is in the database, an unmarshaler is registered for the hook's
    cloud, and that unmarshaler, given the request and the hook's secret,
    returns a payload. *)
Definition accepted r h (hook : hook) (payload : Payload) : Prop :=
  ∃ id d unmarshal,
    decode_All r = Ok id
    ∧ getHookByID id (db h) = (Ok hook, d)
    ∧ cloudHandlers h !! cloud hook = Some unmarshal
    ∧ unmarshal r (secret hook) = Ok payload.

(** The handler publishes an event exactly when the request goes all the
    way through, and then exactly one: the payload the unmarshaler
    returned, under the provider ID of the hook in the database.  In every
    other case nothing is published. *)
Theorem repohookHandler_publishes r h :
  let h' := (repohookHandler Error_ As_ErrIgnoreEvent decode_All r h).2 in
  ∃ new, trace h' = trace h ++ new
    ∧ ((∃ hook payload,
          accepted r h hook payload
          ∧ published new = [{| VCSProviderID := vcsProviderID hook;
                                EventPayload := payload |}]
          ∧ http_errors new = [])
       ∨ (published new = []
          ∧ ∀ hook payload, ¬ accepted r h hook payload)).
Proof using Type.
  unfold accepted. run_handler.
  destruct (decode_All r) as [id|err] eqn:Hdecode; simpl.
  1: destruct (getHookByID id (db h)) as [[hook|err] d] eqn:Hhook; simpl.
  1: destruct (cloudHandlers h !! cloud hook) as [unmarshal|] eqn:Hcloud;
       simpl.
  1: destruct (unmarshal r (secret hook)) as [payload|err] eqn:Hun; simpl.
  2: destruct (As_ErrIgnoreEvent err); simpl.
  all: eexists; (split; [by rewrite <- ?app_assoc|]); simpl.
  1: { left. exists hook, payload. split; [|done].
       by exists id, d, unmarshal. }
  all: right; (split; [done|]).
  all: intros hook' payload' (id' & d' & un' & Hd & Hh & Hc & Hu).
  all: try congruence.
  all: assert (id' = id) as -> by congruence.
  all: try congruence.
  all: assert (hook' = hook) as -> by congruence.
  all: try congruence.
  all: assert (un' = unmarshal) as -> by congruence.
  all: congruence.
Qed.

(** One request, one outcome: the handler writes at most one HTTP error,
    with status 422, 404 or 400, and never both an error and an event.
    When the unmarshaler's error is an [ErrIgnoreEvent] (by [errors.As])
    the handler writes no error at all and publishes nothing. *)
Theorem repohookHandler_one_outcome r h :
  let h' := (repohookHandler Error_ As_ErrIgnoreEvent decode_All r h).2 in
  ∃ new, trace h' = trace h ++ new
    ∧ (length (http_errors new) + length (published new) ≤ 1)%nat
    ∧ Forall (λ e, e.2 = 422 ∨ e.2 = 404 ∨ e.2 = 400) (http_errors new)
    ∧ (∀ id hook d unmarshal err,
         decode_All r = Ok id →
         getHookByID id (db h) = (Ok hook, d) →
         cloudHandlers h !! cloud hook = Some unmarshal →
         unmarshal r (secret hook) = Err err →
         As_ErrIgnoreEvent err = true →
         http_errors new = [] ∧ published new = []).
Proof using Type.
  run_handler.
  destruct (decode_All r) as [id|err] eqn:Hdecode; simpl.
  1: destruct (getHookByID id (db h)) as [[hook|err] d] eqn:Hhook; simpl.
  1: destruct (cloudHandlers h !! cloud hook) as [unmarshal|] eqn:Hcloud;
       simpl.
  1: destruct (unmarshal r (secret hook)) as [payload|err] eqn:Hun; simpl.
  2: destruct (As_ErrIgnoreEvent err) eqn:Has; simpl.
  all: eexists; (split; [by rewrite <- ?app_assoc|]); simpl.
  all: split; [lia|].
  all: split;
    [by repeat first [apply List.Forall_nil
                     |apply List.Forall_cons; [simpl; auto|]]|].
  all: intros id' hook' d' un' err' Hd Hh Hc Hu Hignore.
  all: try congruence.
  all: assert (id' = id) as -> by congruence.
  all: assert (hook' = hook) as -> by congruence.
  all: assert (un' = unmarshal) as -> by congruence.
  all: try congruence.
  all: split; done.
Qed.

End Handlers.
End RepoHooksProps.
